(** * Vägmärkesförhör: the adaptive learning engine

    A shallow embedding of the spaced-repetition scheduler
    ([js/learning/sm2.js]), the application state ([js/state.js]) and the
    quiz engine with its question selection ([js/quiz/engine.js],
    [js/quiz/question-types.js]).

    Conventions of the embedding.
    - A JavaScript number that holds a count, an index, a quality grade or a
      millisecond timestamp is a [Z]; one that holds a measured or derived
      real quantity (ease factor, response time, priority) is an exact
      rational [Q].  The rounding error of binary64 arithmetic is not part of
      the model; the concrete scenarios below are chosen away from rounding
      boundaries.
    - [async] functions are run to completion: every [await] is a plain call.
    - The persistent store, the wall clock and the random source are
      explicit arguments.
    - Division is the total division of [Q].  On the paths studied here the
      divisor is never zero: the average time is replaced by 3000 when it is
      zero, the retention score returns early when there are no attempts,
      and an attempt counter is positive once it has been incremented. *)

From Stdlib Require Import QArith Qround Lqa.
From stdpp Require Import list strings gmap sorting pretty.

Local Open Scope Z_scope.

(** ** JavaScript numeric helpers *)

Module Js.

(** [Math.round]: nearest integer, ties towards plus infinity. *)
Definition round (x : Q) : Z := Qfloor (x + (1 # 2)).

(** [Math.max] and [Math.min] on two numbers. *)
Definition max (a b : Q) : Q := if Qlt_le_dec a b then b else a.
Definition min (a b : Q) : Q := if Qlt_le_dec b a then b else a.

(** [x || d] for a number that may be absent: [undefined], [null] and [0]
    are falsy. *)
Definition or_default (x : option Q) (d : Q) : Q :=
  match x with
  | Some v => if Qeq_dec v 0 then d else v
  | None => d
  end.

(** Milliseconds in one day, for [Date] arithmetic. *)
Definition day_ms : Z := 86400000.

End Js.

(** ** js/learning/sm2.js *)

Module Quality.
Definition COMPLETE_BLACKOUT : Z := 0.
Definition INCORRECT : Z := 1.
Definition INCORRECT_EASY_RECALL : Z := 2.
Definition CORRECT_DIFFICULTY : Z := 3.
Definition CORRECT : Z := 4.
Definition PERFECT : Z := 5.
End Quality.

(** Convert quiz response to quality rating. *)
Definition responseToQuality (isCorrect : bool) (responseTimeMs : Q)
    (averageTimeMs : option Q) : Z :=
  if negb isCorrect then
    if Qlt_le_dec responseTimeMs 3000 then Quality.INCORRECT
    else Quality.COMPLETE_BLACKOUT
  else
    let timeFactor := (responseTimeMs / Js.or_default averageTimeMs 3000)%Q in
    if Qlt_le_dec timeFactor (1 # 2) then Quality.PERFECT
    else if Qlt_le_dec timeFactor 1 then Quality.CORRECT
    else Quality.CORRECT_DIFFICULTY.

Record SM2Result := {
  sm2_easeFactor : Q;
  sm2_interval : Z;
  sm2_repetitions : Z
}.

(** The ease-factor increment [0.1 - (5 - q) * (0.08 + (5 - q) * 0.02)]. *)
Definition efDelta (quality : Z) : Q :=
  ((1 # 10) - inject_Z (5 - quality)
              * ((8 # 100) + inject_Z (5 - quality) * (2 # 100)))%Q.

(** Core SM-2 algorithm. *)
Definition calculateSM2 (quality : Z) (easeFactor : Q) (interval repetitions : Z)
    : SM2Result :=
  let newEF := (easeFactor + efDelta quality)%Q in
  let newEF := Js.max (13 # 10) newEF in
  if quality <? 3 then
    {| sm2_easeFactor := newEF; sm2_interval := 1; sm2_repetitions := 0 |}
  else
    let newReps := repetitions + 1 in
    let newInterval :=
      if newReps =? 1 then 1
      else if newReps =? 2 then 6
      else Js.round (inject_Z interval * newEF) in
    {| sm2_easeFactor := newEF; sm2_interval := newInterval;
       sm2_repetitions := newReps |}.

(** One row of the [SIGN_PROGRESS] store.  Dates are millisecond
    timestamps. *)
Record SignProgress := {
  signId : string;
  category : string;
  totalAttempts : Z;
  correctAttempts : Z;
  easeFactor : Q;
  interval : Z;
  repetitions : Z;
  nextReviewDate : Z;
  lastAttemptDate : option Z;
  averageResponseTime : Q;
  lastQuality : option Z
}.

(** Calculate next review date: [date.setDate(date.getDate() + intervalDays)]
    on the current instant (calendar days are taken as 24 hours). *)
Definition getNextReviewDate (now : Z) (intervalDays : Z) : Z :=
  now + intervalDays * Js.day_ms.

(** ** utils/storage.js *)

(** One row of the [QUIZ_SESSIONS] store. *)
Record QuizSession := {
  qs_date : Z;
  qs_categories : list string;
  qs_mode : string;
  qs_difficulty : string;
  qs_questionType : string;
  qs_totalQuestions : Z;
  qs_correctAnswers : Z;
  qs_wrongAnswers : list (string * string);
  qs_percentage : Z;
  qs_duration : Z;
  qs_bestStreak : Z
}.

(** One row of the [CATEGORY_STATS] store. *)
Record CategoryStat := {
  cs_totalAttempts : Z;
  cs_correctAttempts : Z;
  cs_lastPracticedDate : Z
}.

(** Modelled from the spec: [utils/storage.js] is not among the sources.  The
    store is the key-value record store of the external interfaces: sign
    progress keyed by sign id, category statistics keyed by category id, and
    an append-only list of finished sessions. *)
Record Store := {
  SIGN_PROGRESS : gmap string SignProgress;
  QUIZ_SESSIONS : list QuizSession;
  CATEGORY_STATS : gmap string CategoryStat
}.

Definition emptyStore : Store :=
  {| SIGN_PROGRESS := ∅; QUIZ_SESSIONS := []; CATEGORY_STATS := ∅ |}.

(** Modelled from the spec: [store.get(kind, key)] and [store.put(kind,
    record)] of the missing [utils/storage.js], on the sign-progress store. *)
Definition getProgress (db : Store) (key : string) : option SignProgress :=
  SIGN_PROGRESS db !! key.

Definition putProgress (db : Store) (p : SignProgress) : Store :=
  {| SIGN_PROGRESS := <[signId p := p]> (SIGN_PROGRESS db);
     QUIZ_SESSIONS := QUIZ_SESSIONS db;
     CATEGORY_STATS := CATEGORY_STATS db |}.

(** Modelled from the spec: [store.getAll(kind)] of the missing
    [utils/storage.js]. *)
Definition getAllProgress (db : Store) : list SignProgress :=
  (map_to_list (SIGN_PROGRESS db)).*2.

Definition getAllSessions (db : Store) : list QuizSession := QUIZ_SESSIONS db.

(** ** js/learning/sm2.js, continued *)

(** The record created on the first attempt at a sign. *)
Definition newProgress (now : Z) (signId category : string) : SignProgress :=
  {| signId := signId; category := category;
     totalAttempts := 0; correctAttempts := 0;
     easeFactor := 25 # 10; interval := 0; repetitions := 0;
     nextReviewDate := now; lastAttemptDate := None;
     averageResponseTime := 3000; lastQuality := None |}.

(** The in-memory part of [updateWithSM2]: the new record computed from the
    one that was read (or created). *)
Definition applyAnswer (now : Z) (progress : SignProgress) (isCorrect : bool)
    (responseTimeMs : Q) : SignProgress :=
  let quality :=
    responseToQuality isCorrect responseTimeMs
      (Some (averageResponseTime progress)) in
  let sm2Result :=
    calculateSM2 quality (easeFactor progress) (interval progress)
      (repetitions progress) in
  let totalAttempts' := totalAttempts progress + 1 in
  let prevTotal :=
    (averageResponseTime progress * inject_Z (totalAttempts' - 1))%Q in
  {| signId := signId progress;
     category := category progress;
     totalAttempts := totalAttempts';
     correctAttempts :=
       if isCorrect then correctAttempts progress + 1
       else correctAttempts progress;
     easeFactor := sm2_easeFactor sm2Result;
     interval := sm2_interval sm2Result;
     repetitions := sm2_repetitions sm2Result;
     nextReviewDate := getNextReviewDate now (sm2_interval sm2Result);
     lastAttemptDate := Some now;
     averageResponseTime :=
       ((prevTotal + responseTimeMs) / inject_Z totalAttempts')%Q;
     lastQuality := Some quality |}.

(** Update sign progress with SM-2: returns the updated record and the store
    after the [put]. *)
Definition updateWithSM2 (now : Z) (db : Store) (signId category : string)
    (isCorrect : bool) (responseTimeMs : Q) : SignProgress * Store :=
  let progress :=
    match getProgress db signId with
    | Some p => p
    | None => newProgress now signId category
    end in
  let progress' := applyAnswer now progress isCorrect responseTimeMs in
  (progress', putProgress db progress').

(** Get retention score (0-100) for a sign. *)
Definition getRetentionScore (progress : option SignProgress) : Z :=
  match progress with
  | None => 0
  | Some progress =>
    if totalAttempts progress =? 0 then 0
    else
      let accuracy :=
        (inject_Z (correctAttempts progress)
         / inject_Z (totalAttempts progress))%Q in
      let efFactor :=
        ((easeFactor progress - (13 # 10)) / ((25 # 10) - (13 # 10)))%Q in
      let repsFactor :=
        Js.min 1 (inject_Z (repetitions progress) / 5)%Q in
      Js.round ((accuracy * (5 # 10) + efFactor * (3 # 10)
                 + repsFactor * (2 # 10)) * 100)%Q
  end.

Record Mastery := { level : string; label : string; color : string }.

(** Get mastery level for display. *)
Definition getMasteryLevel (progress : option SignProgress) : Mastery :=
  let score := getRetentionScore progress in
  if 90 <=? score then
    {| level := "master"; label := "Mästare"; color := "#FFD700" |}
  else if 70 <=? score then
    {| level := "proficient"; label := "Kunnig"; color := "#00FF88" |}
  else if 50 <=? score then
    {| level := "learning"; label := "Lär sig"; color := "#00D4AA" |}
  else if 25 <=? score then
    {| level := "beginner"; label := "Nybörjare"; color := "#4682B4" |}
  else {| level := "new"; label := "Ny"; color := "#808080" |}.

(** Check if a sign is due for review. *)
Definition isDueForReview (now : Z) (progress : option SignProgress) : bool :=
  match progress with
  | None => true
  | Some progress => nextReviewDate progress <=? now
  end.

(** ** The sign catalogue *)

Record Sign := {
  sign_id : string;
  sign_name : string;
  sign_img : string;
  sign_difficulty : option Z
}.

Record Category := {
  cat_name : string;
  cat_code : string;
  cat_color : string;
  cat_signs : list Sign
}.

(** A sign spread together with its category, as the engine builds it
    ([{...sign, category, categoryName, categoryCode, categoryColor}]). *)
Record QuizSign := {
  id : string;
  name : string;
  img : string;
  difficulty : option Z;
  qcategory : string;
  categoryName : string;
  categoryCode : string;
  categoryColor : string
}.

Definition withCategory (catKey : string) (c : Category) (s : Sign) : QuizSign :=
  {| id := sign_id s; name := sign_name s; img := sign_img s;
     difficulty := sign_difficulty s; qcategory := catKey;
     categoryName := cat_name c; categoryCode := cat_code c;
     categoryColor := cat_color c |}.

(** ** js/state.js *)

Record State := {
  signData : gmap string Category;
  selectedCategories : list string;
  quizSigns : list QuizSign;
  currentQuestion : nat;
  correctAnswers : Z;
  streak : Z;
  bestStreak : Z;
  wrongAnswers : list QuizSign;
  questionsPerQuiz : Z;
  shuffleOptions : bool;
  showCategoryInfo : bool;
  questionType : string;
  quizMode : string;
  difficultySetting : string;
  currentScreen : string;
  quizStartTime : option Z;
  quizEndTime : option Z
}.

Definition initialState : State :=
  {| signData := ∅; selectedCategories := []; quizSigns := [];
     currentQuestion := 0; correctAnswers := 0; streak := 0; bestStreak := 0;
     wrongAnswers := []; questionsPerQuiz := 15; shuffleOptions := true;
     showCategoryInfo := true; questionType := "mixed";
     quizMode := "standard"; difficultySetting := "adaptive";
     currentScreen := "start"; quizStartTime := None; quizEndTime := None |}.

(** The settings object kept under [STORAGE_KEY] in [localStorage]. *)
Record Settings := {
  set_questionsPerQuiz : Z;
  set_shuffleOptions : bool;
  set_showCategoryInfo : bool;
  set_questionType : string;
  set_quizMode : string;
  set_difficulty : string;
  set_bestStreak : Z
}.

(** [localStorage.getItem(STORAGE_KEY)], parsed: [None] when nothing was
    stored yet. *)
Definition LocalStorage := option Settings.

Definition saveSettings (state : State) : LocalStorage :=
  Some {| set_questionsPerQuiz := questionsPerQuiz state;
          set_shuffleOptions := shuffleOptions state;
          set_showCategoryInfo := showCategoryInfo state;
          set_questionType := questionType state;
          set_quizMode := quizMode state;
          set_difficulty := difficultySetting state;
          set_bestStreak := bestStreak state |}.

(** [Number(x) || d] and [s || d]: zero and the empty string are falsy. *)
Definition numOr (x d : Z) : Z := if x =? 0 then d else x.
Definition strOr (s d : string) : string := if decide (s = "") then d else s.

Definition loadSettings (ls : LocalStorage) (state : State) : State :=
  match ls with
  | None => state
  | Some parsed =>
    {| signData := signData state;
       selectedCategories := selectedCategories state;
       quizSigns := quizSigns state;
       currentQuestion := currentQuestion state;
       correctAnswers := correctAnswers state;
       streak := streak state;
       bestStreak := numOr (set_bestStreak parsed) 0;
       wrongAnswers := wrongAnswers state;
       questionsPerQuiz :=
         numOr (set_questionsPerQuiz parsed) (questionsPerQuiz state);
       shuffleOptions := set_shuffleOptions parsed;
       showCategoryInfo := set_showCategoryInfo parsed;
       questionType := strOr (set_questionType parsed) (questionType state);
       quizMode := strOr (set_quizMode parsed) (quizMode state);
       difficultySetting :=
         strOr (set_difficulty parsed) (difficultySetting state);
       currentScreen := currentScreen state;
       quizStartTime := quizStartTime state;
       quizEndTime := quizEndTime state |}
  end.

(** The session fields of the state, rewritten as a block by the functions
    below; every other field is carried over. *)
Definition withSession (state : State) (signs : list QuizSign) (cur : nat)
    (correct str best : Z) (wrong : list QuizSign) (t0 t1 : option Z) : State :=
  {| signData := signData state;
     selectedCategories := selectedCategories state;
     quizSigns := signs;
     currentQuestion := cur;
     correctAnswers := correct;
     streak := str;
     bestStreak := best;
     wrongAnswers := wrong;
     questionsPerQuiz := questionsPerQuiz state;
     shuffleOptions := shuffleOptions state;
     showCategoryInfo := showCategoryInfo state;
     questionType := questionType state;
     quizMode := quizMode state;
     difficultySetting := difficultySetting state;
     currentScreen := currentScreen state;
     quizStartTime := t0;
     quizEndTime := t1 |}.

Definition resetQuizState (now : Z) (state : State) : State :=
  withSession state [] 0%nat 0 0 (bestStreak state) [] (Some now) None.

(** [updateStreak]: the new state and, when the high-water mark moved, the
    settings written back to [localStorage]. *)
Definition updateStreak (isCorrect : bool) (state : State) (ls : LocalStorage)
    : State * LocalStorage :=
  if isCorrect then
    let streak' := streak state + 1 in
    if bestStreak state <? streak' then
      let state' :=
        withSession state (quizSigns state) (currentQuestion state)
          (correctAnswers state) streak' streak' (wrongAnswers state)
          (quizStartTime state) (quizEndTime state) in
      (state', saveSettings state')
    else
      (withSession state (quizSigns state) (currentQuestion state)
         (correctAnswers state) streak' (bestStreak state)
         (wrongAnswers state) (quizStartTime state) (quizEndTime state), ls)
  else
    (withSession state (quizSigns state) (currentQuestion state)
       (correctAnswers state) 0 (bestStreak state) (wrongAnswers state)
       (quizStartTime state) (quizEndTime state), ls).

(** ** JavaScript arrays *)

Module JsArray.
Section Ops.
Context {A : Type}.

(** [arr.slice(0, end)]: a negative [end] counts from the back. *)
Definition slice0 (arr : list A) (e : Z) : list A :=
  let len := Z.of_nat (length arr) in
  let final := if e <? 0 then Z.max (len + e) 0 else Z.min e len in
  take (Z.to_nat final) arr.

(** [[arr[i], arr[j]] = [arr[j], arr[i]]] for two indices inside the
    array; other indices are not produced by the callers and leave the
    list as it is. *)
Definition swap (arr : list A) (i j : nat) : list A :=
  match arr !! i, arr !! j with
  | Some x, Some y => <[j := x]> (<[i := y]> arr)
  | _, _ => arr
  end.

(** [Array.prototype.sort(cmp)] is a stable sort: [a] goes after [b]
    exactly when [cmp a b > 0], and elements that compare equal keep
    their order.  For a comparator that is a total preorder the result is
    unique; it is computed here by insertion from the right, placing each
    element in front of its equals. *)
Fixpoint insert (cmp : A → A → Q) (x : A) (l : list A) : list A :=
  match l with
  | [] => [x]
  | y :: l' =>
    if Qlt_le_dec 0 (cmp x y) then y :: insert cmp x l' else x :: y :: l'
  end.

Fixpoint sort (cmp : A → A → Q) (l : list A) : list A :=
  match l with
  | [] => []
  | x :: l' => insert cmp x (sort cmp l')
  end.
End Ops.
End JsArray.

(** ** js/quiz/question-types.js *)

(** The index [Math.floor(Math.random() * (i + 1))] for the draw [u]. *)
Definition randomIndex (u : Q) (i : nat) : nat :=
  Z.to_nat (Qfloor (u * inject_Z (Z.of_nat i + 1))).

(** The loop of [shuffleArray], from index [i] down to 1; [k] counts the
    calls to [Math.random] made so far. *)
Fixpoint shuffleLoop {A : Type} (random : nat → Q) (k i : nat) (arr : list A)
    : list A :=
  match i with
  | O => arr
  | S i' =>
    let j := randomIndex (random k) i in
    shuffleLoop random (S k) i' (JsArray.swap arr i j)
  end.

(** Shuffle array using Fisher-Yates.  [random k] is the value of the [k]-th
    call to [Math.random]. *)
Definition shuffleArray {A : Type} (random : nat → Q) (array : list A) : list A :=
  shuffleLoop random 0 (length array - 1) array.

Definition allowedDifficulties (difficulty : string) : list Z :=
  if decide (difficulty = "easy") then [1; 2]
  else if decide (difficulty = "medium") then [2; 3; 4]
  else if decide (difficulty = "hard") then [3; 4; 5]
  else [1; 2; 3; 4; 5].

(** [sign.difficulty || 2]. *)
Definition signDifficulty (s : QuizSign) : Z :=
  match difficulty s with
  | Some d => if d =? 0 then 2 else d
  | None => 2
  end.

(** Filter signs by difficulty. *)
Definition filterByDifficulty (signs : list QuizSign) (difficulty : string)
    : list QuizSign :=
  if decide (difficulty = "adaptive") then signs
  else filter (λ s, signDifficulty s ∈ allowedDifficulties difficulty) signs.

(** ** utils/storage.js, queries and writers *)

Definition accuracyOf (p : SignProgress) : Q :=
  (inject_Z (correctAttempts p) / inject_Z (totalAttempts p))%Q.

(** Modelled from the spec: [store.getDue(kind, beforeTimestamp, limit)] of
    the missing [utils/storage.js]: the records due at [now], ordered by due
    date ascending, at most [limit] of them. *)
Definition getDueForReview (now : Z) (db : Store) (limit : Z)
    : list SignProgress :=
  take (Z.to_nat limit)
    (JsArray.sort
       (λ a b, inject_Z (nextReviewDate a - nextReviewDate b))
       (filter (λ p, nextReviewDate p ≤ now) (getAllProgress db))).

(** Modelled from the spec: [store.getWeakest(kind, limit)] of the missing
    [utils/storage.js]: the records with at least two attempts, by ascending
    accuracy, at most [limit] of them. *)
Definition getWeakestSigns (db : Store) (limit : Z) : list SignProgress :=
  take (Z.to_nat limit)
    (JsArray.sort (λ a b, (accuracyOf a - accuracyOf b)%Q)
       (filter (λ p, 2 ≤ totalAttempts p) (getAllProgress db))).

(** Modelled from the spec: [saveQuizSession] of the missing
    [utils/storage.js] appends the finished session to the session store. *)
Definition saveQuizSession (db : Store) (s : QuizSession) : Store :=
  {| SIGN_PROGRESS := SIGN_PROGRESS db;
     QUIZ_SESSIONS := QUIZ_SESSIONS db ++ [s];
     CATEGORY_STATS := CATEGORY_STATS db |}.

(** Modelled from the spec: [updateCategoryStats] of the missing
    [utils/storage.js] accumulates the category's counters. *)
Definition updateCategoryStats (now : Z) (db : Store) (cat : string)
    (correct total : Z) : Store :=
  let old :=
    default {| cs_totalAttempts := 0; cs_correctAttempts := 0;
               cs_lastPracticedDate := now |} (CATEGORY_STATS db !! cat) in
  {| SIGN_PROGRESS := SIGN_PROGRESS db;
     QUIZ_SESSIONS := QUIZ_SESSIONS db;
     CATEGORY_STATS :=
       <[cat := {| cs_totalAttempts := cs_totalAttempts old + total;
                   cs_correctAttempts := cs_correctAttempts old + correct;
                   cs_lastPracticedDate := now |}]> (CATEGORY_STATS db) |}.

(** ** js/quiz/engine.js *)

(** The candidate pool: the signs of the selected categories, in selection
    order, then the difficulty filter. *)
Definition categoryCandidates (state : State) : list QuizSign :=
  flat_map
    (λ catKey,
       match signData state !! catKey with
       | Some category => withCategory catKey category <$> cat_signs category
       | None => []
       end)
    (selectedCategories state).

Definition candidatePool (state : State) : list QuizSign :=
  filterByDifficulty (categoryCandidates state) (difficultySetting state).

(** [getLatestQuizSession]: the first session after sorting by date,
    newest first. *)
Definition getLatestQuizSession (db : Store) : option QuizSession :=
  head (JsArray.sort (λ a b, inject_Z (qs_date b - qs_date a))
          (getAllSessions db)).

(** [candidates.filter(s => !selected.some(sel => sel.id === s.id))]. *)
Definition notSelected (selected candidates : list QuizSign) : list QuizSign :=
  filter (λ s, id s ∉ id <$> selected) candidates.

(** The [missed] case: practice previously missed signs. *)
Definition selectMissed (random : nat → Q) (lastSession : option QuizSession)
    (candidates : list QuizSign) (questionsPerQuiz : Z) : list QuizSign :=
  let selected :=
    match lastSession with
    | Some s =>
      match qs_wrongAnswers s with
      | [] => []
      | wrong =>
        let missedIds : gset string := list_to_set (wrong.*1) in
        filter (λ s, id s ∈ missedIds) candidates
      end
    | None => []
    end in
  if (length selected <? 5)%nat then
    let remaining := notSelected selected candidates in
    selected
    ++ JsArray.slice0 (shuffleArray random remaining)
         (questionsPerQuiz - Z.of_nat (length selected))
  else selected.

(** The [weakest] case: practice weakest signs based on accuracy. *)
Definition selectWeakest (random : nat → Q) (weakest : list SignProgress)
    (candidates : list QuizSign) (questionsPerQuiz : Z) : list QuizSign :=
  let weakestIds : gset string := list_to_set (signId <$> weakest) in
  let selected := filter (λ s, id s ∈ weakestIds) candidates in
  if Z.of_nat (length selected) <? questionsPerQuiz then
    let remaining := notSelected selected candidates in
    selected
    ++ JsArray.slice0 (shuffleArray random remaining)
         (questionsPerQuiz - Z.of_nat (length selected))
  else selected.

(** The [spaced] case: spaced repetition, due for review. *)
Definition selectSpaced (random : nat → Q)
    (dueForReview allProgress : list SignProgress)
    (candidates : list QuizSign) (questionsPerQuiz : Z) : list QuizSign :=
  let dueIds : gset string := list_to_set (signId <$> dueForReview) in
  let selected := filter (λ s, id s ∈ dueIds) candidates in
  if Z.of_nat (length selected) <? questionsPerQuiz then
    let studiedIds : gset string := list_to_set (signId <$> allProgress) in
    let newSigns := filter (λ s, id s ∉ studiedIds) candidates in
    selected
    ++ JsArray.slice0 (shuffleArray random newSigns)
         (questionsPerQuiz - Z.of_nat (length selected))
  else selected.

(** [new Map(allProgress.map(p => [p.signId, p]))]: a later entry with the
    same key replaces an earlier one. *)
Definition progressMap (allProgress : list SignProgress)
    : gmap string SignProgress :=
  foldl (λ m p, <[signId p := p]> m) ∅ allProgress.

(** The learning priority of one candidate in the [adaptive] case. *)
Definition priorityOf (now : Z) (pm : gmap string SignProgress)
    (sign : QuizSign) : Q :=
  match pm !! id sign with
  | Some progress =>
    let retention := getRetentionScore (Some progress) in
    if isDueForReview now (Some progress) then inject_Z (100 - retention)
    else (20 - inject_Z retention * (2 # 10))%Q
  | None => 50
  end.

(** The [adaptive] case: mix of new and review. *)
Definition selectAdaptive (now : Z) (allProgress : list SignProgress)
    (candidates : list QuizSign) (questionsPerQuiz : Z) : list QuizSign :=
  let pm := progressMap allProgress in
  let scored := (λ sign, (sign, priorityOf now pm sign)) <$> candidates in
  let sorted := JsArray.sort (λ a b, (b.2 - a.2)%Q) scored in
  fst <$> JsArray.slice0 sorted questionsPerQuiz.

(** Select signs for quiz based on mode: the selection, which is also
    stored in [state.quizSigns]. *)
Definition selectQuizSigns (now : Z) (random : nat → Q) (db : Store)
    (state : State) : list QuizSign * State :=
  let candidates := candidatePool state in
  let n := questionsPerQuiz state in
  let mode := quizMode state in
  let selected :=
    if decide (mode = "missed") then
      selectMissed random (getLatestQuizSession db) candidates n
    else if decide (mode = "weakest") then
      selectWeakest random (getWeakestSigns db n) candidates n
    else if decide (mode = "spaced") then
      selectSpaced random (getDueForReview now db (n * 2))
        (getAllProgress db) candidates n
    else if decide (mode = "adaptive") then
      selectAdaptive now (getAllProgress db) candidates n
    else
      JsArray.slice0 (shuffleArray random candidates) n in
  (selected,
   withSession state selected (currentQuestion state) (correctAnswers state)
     (streak state) (bestStreak state) (wrongAnswers state)
     (quizStartTime state) (quizEndTime state)).

(** Start a new quiz. *)
Definition startQuiz (now : Z) (random : nat → Q) (db : Store) (state : State)
    : bool * State :=
  match selectedCategories state with
  | [] => (false, state)
  | _ =>
    let state1 := resetQuizState now state in
    let state2 := (selectQuizSigns now random db state1).2 in
    match quizSigns state2 with
    | [] => (false, state2)
    | _ => (true, state2)
    end
  end.

(** The question on screen.  Its options always contain the sign itself as
    the one marked correct ([generateOptions] appends it), so the correct
    option's id is the sign's id; the distractors play no role below. *)
Record Question := {
  q_sign : QuizSign;
  q_startTime : Z
}.

(** Everything the engine reads and writes: the shared [state], the module
    variable [currentQuestion], the store and the settings in
    [localStorage]. *)
Record App := {
  app_state : State;
  app_question : option Question;
  app_db : Store;
  app_settings : LocalStorage
}.

(** Load current question. *)
Definition loadCurrentQuestion (now : Z) (app : App) : App :=
  match quizSigns (app_state app) !! currentQuestion (app_state app) with
  | None => app
  | Some sign =>
    {| app_state := app_state app;
       app_question := Some {| q_sign := sign; q_startTime := now |};
       app_db := app_db app;
       app_settings := app_settings app |}
  end.

Record AnswerResult := {
  res_isCorrect : bool;
  res_correctAnswer : string;
  res_responseTime : Z;
  res_streak : Z
}.

(** Check answer and update progress. *)
Definition checkAnswer (now : Z) (selectedOptionId : string) (app : App)
    : option AnswerResult * App :=
  match app_question app with
  | None => (None, app)
  | Some question =>
    let state := app_state app in
    let responseTime := now - q_startTime question in
    let correctId := id (q_sign question) in
    let isCorrect := bool_decide (selectedOptionId = correctId) in
    let state1 :=
      if isCorrect then
        withSession state (quizSigns state) (currentQuestion state)
          (correctAnswers state + 1) (streak state) (bestStreak state)
          (wrongAnswers state) (quizStartTime state) (quizEndTime state)
      else
        withSession state (quizSigns state) (currentQuestion state)
          (correctAnswers state) (streak state) (bestStreak state)
          (wrongAnswers state ++ [q_sign question])
          (quizStartTime state) (quizEndTime state) in
    let '(state2, ls) := updateStreak isCorrect state1 (app_settings app) in
    let db :=
      (updateWithSM2 now (app_db app) (id (q_sign question))
         (qcategory (q_sign question)) isCorrect (inject_Z responseTime)).2 in
    (Some {| res_isCorrect := isCorrect; res_correctAnswer := correctId;
             res_responseTime := responseTime; res_streak := streak state2 |},
     {| app_state := state2; app_question := app_question app;
        app_db := db; app_settings := ls |})
  end.

(** Move to next question. *)
Definition nextQuestion (state : State) : bool * State :=
  let state' :=
    withSession state (quizSigns state) (S (currentQuestion state))
      (correctAnswers state) (streak state) (bestStreak state)
      (wrongAnswers state) (quizStartTime state) (quizEndTime state) in
  (bool_decide (currentQuestion state' < length (quizSigns state'))%nat, state').

(** The session record that [finishQuiz] hands to [saveQuizSession]. *)
Definition sessionRecord (now : Z) (state : State) : QuizSession :=
  let total := Z.of_nat (length (quizSigns state)) in
  {| qs_date := now;
     qs_categories := selectedCategories state;
     qs_mode := quizMode state;
     qs_difficulty := difficultySetting state;
     qs_questionType := questionType state;
     qs_totalQuestions := total;
     qs_correctAnswers := correctAnswers state;
     qs_wrongAnswers := (λ s, (id s, name s)) <$> wrongAnswers state;
     qs_percentage :=
       Js.round (inject_Z (correctAnswers state) / inject_Z total * 100)%Q;
     qs_duration := now - default 0 (quizStartTime state);
     qs_bestStreak := Z.max (streak state) (bestStreak state) |}.

(** The keys of [categoryTotal] in insertion order, each with its count. *)
Fixpoint categoryTotals (signs : list QuizSign) (acc : list (string * Z))
    : list (string * Z) :=
  match signs with
  | [] => acc
  | s :: rest =>
    let cat := qcategory s in
    let acc' :=
      if decide (cat ∈ acc.*1) then
        (λ kv : string * Z, if decide (kv.1 = cat) then (kv.1, kv.2 + 1) else kv)
          <$> acc
      else acc ++ [(cat, 1)] in
    categoryTotals rest acc'
  end.

(** Finish quiz and save results. *)
Definition finishQuiz (now : Z) (app : App) : App :=
  let state0 := app_state app in
  let state :=
    withSession state0 (quizSigns state0) (currentQuestion state0)
      (correctAnswers state0) (streak state0) (bestStreak state0)
      (wrongAnswers state0) (quizStartTime state0) (Some now) in
  let db1 := saveQuizSession (app_db app) (sessionRecord now state) in
  let db2 :=
    foldl
      (λ db (kv : string * Z),
         let wrong :=
           Z.of_nat
             (length (filter (λ s, qcategory s = kv.1) (wrongAnswers state))) in
         updateCategoryStats now db kv.1 (kv.2 - wrong) kv.2)
      db1 (categoryTotals (quizSigns state) []) in
  {| app_state := state; app_question := app_question app;
     app_db := db2; app_settings := app_settings app |}.

(** One answered question followed by [nextQuestion], as the UI drives it:
    the question is loaded at [now], answered [rt] milliseconds later with
    the option [opt]. *)
Definition playQuestion (now rt : Z) (opt : string) (app : App) : App :=
  let app1 := loadCurrentQuestion now app in
  let app2 := (checkAnswer (now + rt) opt app1).2 in
  {| app_state := (nextQuestion (app_state app2)).2;
     app_question := app_question app2;
     app_db := app_db app2; app_settings := app_settings app2 |}.

(** ** Auxiliary notions for the statements *)

#[local] Instance Qeq_decision (x y : Q) : Decision (x == y)%Q := Qeq_dec x y.

(** Largest key first: [a] may stand before [b]. *)
Definition descending {A : Type} (key : A → Q) (a b : A) : Prop :=
  (key b <= key a)%Q.

(** The comparator of the adaptive mode, on the signs themselves. *)
Definition byPriority (prio : QuizSign → Q) (a b : QuizSign) : Q :=
  (prio b - prio a)%Q.

(** The wrong-answer ids of the latest session ([[]] when there is none). *)
Definition missedIdsOf (lastSession : option QuizSession) : list string :=
  match lastSession with
  | Some s => (qs_wrongAnswers s).*1
  | None => []
  end.

(** The primary selection of the missed mode: the pool's signs that were
    answered wrongly in the latest session. *)
Definition missedEligible (lastSession : option QuizSession)
    (candidates : list QuizSign) : list QuizSign :=
  filter (λ s, id s ∈ missedIdsOf lastSession) candidates.

(** The id of the sign about to be asked. *)
Definition currentSignId (app : App) : string :=
  default ""
    (id <$> quizSigns (app_state app) !! currentQuestion (app_state app)).

(** Answers the questions of a running quiz one after the other, right or
    wrong as told, one second per answer; returns the streak shown after
    each answer. *)
Fixpoint playAnswers (now : Z) (answers : list bool) (app : App)
    : list Z * App :=
  match answers with
  | [] => ([], app)
  | isRight :: rest =>
    let opt := if isRight then currentSignId app else "no such option" in
    let app' := playQuestion now 1000 opt app in
    let '(streaks, app'') := playAnswers (now + 2000) rest app' in
    (streak (app_state app') :: streaks, app'')
  end.

(** One whole session: start, answer, finish. *)
Definition runSession (now : Z) (random : nat → Q) (answers : list bool)
    (app : App) : list Z * App :=
  let '(_, state) := startQuiz now random (app_db app) (app_state app) in
  let app1 :=
    {| app_state := state; app_question := app_question app;
       app_db := app_db app; app_settings := app_settings app |} in
  let '(streaks, app2) := playAnswers now answers app1 in
  (streaks, finishQuiz (now + 60000) app2).

(** One operation of the engine, as the UI may call it at any moment. *)
Inductive engineStep : App → App → Prop :=
| step_startQuiz now random app :
    engineStep app
      {| app_state :=
           (startQuiz now random (app_db app) (app_state app)).2;
         app_question := app_question app;
         app_db := app_db app; app_settings := app_settings app |}
| step_loadCurrentQuestion now app :
    engineStep app (loadCurrentQuestion now app)
| step_checkAnswer now opt app :
    engineStep app (checkAnswer now opt app).2
| step_nextQuestion app :
    engineStep app
      {| app_state := (nextQuestion (app_state app)).2;
         app_question := app_question app;
         app_db := app_db app; app_settings := app_settings app |}
| step_finishQuiz now app :
    engineStep app (finishQuiz now app).

(** The applications reachable from a fresh installation, whose store is
    empty. *)
Definition reachable (app : App) : Prop :=
  ∃ app0, app_db app0 = emptyStore ∧ rtc engineStep app0 app.


(** ** Concrete scenarios *)

(** The record reached from a new one by four right answers, each given in
    less than half of the running average time. *)
Definition fourQuickAnswers : SignProgress :=
  let db0 := emptyStore in
  let db1 := (updateWithSM2 0 db0 "A1" "warning" true 1000).2 in
  let db2 := (updateWithSM2 1 db1 "A1" "warning" true 400).2 in
  let db3 := (updateWithSM2 2 db2 "A1" "warning" true 300).2 in
  (updateWithSM2 3 db3 "A1" "warning" true 200).1.

(** Scenario B: the default record and a wrong answer given after 5000 ms. *)
Definition scenarioB_quality : Z :=
  responseToQuality false 5000
    (Some (averageResponseTime (newProgress 0 "A1" "warning"))).

Definition scenarioB_result : SM2Result :=
  let p := newProgress 0 "A1" "warning" in
  calculateSM2 scenarioB_quality (easeFactor p) (interval p) (repetitions p).

(** A small catalogue for the concrete scenarios: signs of one category. *)
Definition sampleSign (i : string) : QuizSign :=
  {| id := i; name := i; img := i; difficulty := None;
     qcategory := "warning"; categoryName := "Varningsmärken";
     categoryCode := "A"; categoryColor := "#FFCC00" |}.

(** A fresh installation showing sign A1 as its question, asked five
    seconds before time 0. *)
Definition freshAppAskingA1 : App :=
  {| app_state := initialState;
     app_question := Some {| q_sign := sampleSign "A1"; q_startTime := -5000 |};
     app_db := emptyStore; app_settings := None |}.

(** The store after one wrong answer on sign A1 at time 0: the sign is due
    again one day later. *)
Definition oneWrongAnswer : Store :=
  (updateWithSM2 0 emptyStore "A1" "warning" false 5000).2.

(** The same store after a further answer on a sign outside the pool. *)
Definition oneWrongAnswerElsewhere : Store :=
  (updateWithSM2 50 oneWrongAnswer "B7" "priority" true 1200).2.

(** A finished session of ten questions in which the signs [ids] were
    answered wrongly, and a random source that always draws 0. *)
Definition sessionMissing (ids : list string) : QuizSession :=
  {| qs_date := 0; qs_categories := ["warning"]; qs_mode := "standard";
     qs_difficulty := "adaptive"; qs_questionType := "mixed";
     qs_totalQuestions := 10;
     qs_correctAnswers := 10 - Z.of_nat (length ids);
     qs_wrongAnswers := (λ i, (i, i)) <$> ids;
     qs_percentage := 0; qs_duration := 60000; qs_bestStreak := 0 |}.

Definition alwaysZero : nat → Q := λ _, 0%Q.

(** The catalogue and the settings of the concrete sessions: one category
    of three signs, adaptive mode, three questions. *)
Definition demoCategory : Category :=
  {| cat_name := "Varningsmärken"; cat_code := "A"; cat_color := "#FFCC00";
     cat_signs :=
       (λ i, {| sign_id := i; sign_name := i; sign_img := i;
                sign_difficulty := None |}) <$> ["A1"; "A2"; "A3"] |}.

Definition demoState : State :=
  {| signData := {[ "warning" := demoCategory ]};
     selectedCategories := ["warning"]; quizSigns := [];
     currentQuestion := 0; correctAnswers := 0; streak := 0; bestStreak := 0;
     wrongAnswers := []; questionsPerQuiz := 3; shuffleOptions := true;
     showCategoryInfo := true; questionType := "mixed";
     quizMode := "adaptive"; difficultySetting := "adaptive";
     currentScreen := "start"; quizStartTime := None; quizEndTime := None |}.

(** A first session of three right answers, a reload of the page, and a
    second session with one right answer followed by two wrong ones. *)
Definition firstSession : list Z * App :=
  runSession 0 alwaysZero [true; true; true]
    {| app_state := demoState; app_question := None;
       app_db := emptyStore; app_settings := None |}.

Definition secondSession : list Z * App :=
  let app1 := firstSession.2 in
  runSession 3600000 alwaysZero [true; false; false]
    {| app_state := loadSettings (app_settings app1) demoState;
       app_question := None;
       app_db := app_db app1; app_settings := app_settings app1 |}.

(** A category of ten signs, a state that practises it in missed mode with a
    target of ten, and a store whose only session is the given one. *)
Definition tenCategory : Category :=
  {| cat_name := "Varningsmärken"; cat_code := "A"; cat_color := "#FFCC00";
     cat_signs :=
       (λ i, {| sign_id := i; sign_name := i; sign_img := i;
                sign_difficulty := None |})
       <$> ["A1"; "A2"; "A3"; "A4"; "A5"; "A6"; "A7"; "A8"; "A9"; "A10"] |}.

Definition missedState : State :=
  {| signData := {[ "warning" := tenCategory ]};
     selectedCategories := ["warning"]; quizSigns := [];
     currentQuestion := 0; correctAnswers := 0; streak := 0; bestStreak := 0;
     wrongAnswers := []; questionsPerQuiz := 10; shuffleOptions := true;
     showCategoryInfo := true; questionType := "mixed";
     quizMode := "missed"; difficultySetting := "adaptive";
     currentScreen := "start"; quizStartTime := None; quizEndTime := None |}.

Definition storeWithSession (s : QuizSession) : Store :=
  saveQuizSession emptyStore s.

(** The latest session missed six of the ten signs. *)
Definition sixMissedStore : Store :=
  storeWithSession (sessionMissing ["A1"; "A2"; "A3"; "A4"; "A5"; "A6"]).

(** ** Well-formed progress records *)

(** A record as [updateWithSM2] leaves it: attempted at least once, no more
    right answers than attempts, the ease factor above its floor, and an
    interval that fits the repetition count. *)
Definition scheduled (p : SignProgress) : Prop :=
  1 ≤ totalAttempts p
  ∧ 0 ≤ correctAttempts p ≤ totalAttempts p
  ∧ (13 # 10 <= easeFactor p)%Q
  ∧ 0 ≤ repetitions p
  ∧ (repetitions p ≤ 1 → interval p = 1)
  ∧ (2 ≤ repetitions p → 6 ≤ interval p).

(** Every record of the store is filed under its own sign id and is
    [scheduled]. *)
Definition storeScheduled (db : Store) : Prop :=
  ∀ key p, getProgress db key = Some p → signId p = key ∧ scheduled p.

(** The record that [updateWithSM2] works on: one read from a well-formed
    store, or the record of a first attempt. *)
Definition answerable (p : SignProgress) : Prop :=
  scheduled p
  ∨ (totalAttempts p = 0 ∧ correctAttempts p = 0 ∧ repetitions p = 0).

(** ** Two records that differ in their right answers only *)

Definition twoOfFour : SignProgress :=
  {| signId := "A1"; category := "warning";
     totalAttempts := 4; correctAttempts := 2;
     easeFactor := 25 # 10; interval := 1; repetitions := 1;
     nextReviewDate := 86400000; lastAttemptDate := Some 0;
     averageResponseTime := 2000; lastQuality := Some 4 |}.

Definition threeOfFour : SignProgress :=
  {| signId := "A1"; category := "warning";
     totalAttempts := 4; correctAttempts := 3;
     easeFactor := 25 # 10; interval := 1; repetitions := 1;
     nextReviewDate := 86400000; lastAttemptDate := Some 0;
     averageResponseTime := 2000; lastQuality := Some 4 |}.

(** ** Streak invariants *)

(** The running streak is not negative and does not exceed the best one. *)
Definition streakBounded (state : State) : Prop :=
  0 ≤ streak state ≤ bestStreak state.

(** Loading the saved settings into the initial state, as a reload of the
    page does, gives back the best streak of the running state. *)
Definition bestStreakSaved (app : App) : Prop :=
  bestStreak (loadSettings (app_settings app) initialState)
  = bestStreak (app_state app).

(** ** More concrete scenarios *)

(** A category of exactly five signs, practised in standard mode with five
    questions. *)
Definition fiveCategory : Category :=
  {| cat_name := "Förbudsmärken"; cat_code := "C"; cat_color := "#CC0000";
     cat_signs :=
       (λ i, {| sign_id := i; sign_name := i; sign_img := i;
                sign_difficulty := None |})
       <$> ["C1"; "C2"; "C3"; "C4"; "C5"] |}.

Definition standardState : State :=
  {| signData := {[ "x" := fiveCategory ]};
     selectedCategories := ["x"]; quizSigns := [];
     currentQuestion := 0; correctAnswers := 0; streak := 0; bestStreak := 0;
     wrongAnswers := []; questionsPerQuiz := 5; shuffleOptions := true;
     showCategoryInfo := true; questionType := "mixed";
     quizMode := "standard"; difficultySetting := "adaptive";
     currentScreen := "start"; quizStartTime := None; quizEndTime := None |}.

(** A random source that always draws one half. *)
Definition alwaysHalf : nat → Q := λ _, (1 # 2)%Q.

(** The three-sign catalogue practised with the difficulty setting [hard]. *)
Definition hardState : State :=
  {| signData := {[ "warning" := demoCategory ]};
     selectedCategories := ["warning"]; quizSigns := [];
     currentQuestion := 0; correctAnswers := 0; streak := 0; bestStreak := 0;
     wrongAnswers := []; questionsPerQuiz := 3; shuffleOptions := true;
     showCategoryInfo := true; questionType := "mixed";
     quizMode := "standard"; difficultySetting := "hard";
     currentScreen := "start"; quizStartTime := None; quizEndTime := None |}.

(** ** js/quiz/question-types.js, question generation *)

Module QuestionType.
Definition IMAGE_TO_TEXT : string := "image-to-text".
Definition TEXT_TO_IMAGE : string := "text-to-image".
End QuestionType.

(** [shuffleArray] when [k] draws of [Math.random] have been made before. *)
Definition shuffleFrom {A : Type} (random : nat → Q) (k : nat)
    (array : list A) : list A :=
  shuffleLoop random k (length array - 1) array.

(** The number of draws one [shuffleArray] makes. *)
Definition shuffleDraws {A : Type} (array : list A) : nat := length array - 1.

(** Generate options for a question; [k] draws have been made before. *)
Definition generateOptions (random : nat → Q) (k : nat) (shuffleOptions : bool)
    (correctSign : QuizSign) (allSigns : list QuizSign) (count : Z)
    : list QuizSign :=
  let filtered := filter (λ s, id s ≠ id correctSign) allSigns in
  let wrongOptions := JsArray.slice0 (shuffleFrom random k filtered) (count - 1) in
  let options := wrongOptions ++ [correctSign] in
  if shuffleOptions then shuffleFrom random (k + shuffleDraws filtered) options
  else options.

(** One answer option of a question; the image is part of the option in a
    text-to-image question only. *)
Record AnswerOption := {
  opt_id : string;
  opt_name : string;
  opt_img : option string;
  opt_isCorrect : bool
}.

(** The question object of the source, with its options. *)
Record GeneratedQuestion := {
  gq_type : string;
  gq_sign : QuizSign;
  gq_prompt : string;
  gq_options : list AnswerOption;
  gq_startTime : Z
}.

(** Generate Image-to-Text question. *)
Definition generateImageToTextQuestion (now : Z) (random : nat → Q) (k : nat)
    (shuffleOptions : bool) (sign : QuizSign) (allSigns : list QuizSign)
    : GeneratedQuestion :=
  let options := generateOptions random k shuffleOptions sign allSigns 4 in
  {| gq_type := QuestionType.IMAGE_TO_TEXT;
     gq_sign := sign;
     gq_prompt := "Vad betyder detta vägmärke?";
     gq_options :=
       (λ opt, {| opt_id := id opt; opt_name := name opt; opt_img := None;
                  opt_isCorrect := bool_decide (id opt = id sign) |})
       <$> options;
     gq_startTime := now |}.

(** Generate Text-to-Image question. *)
Definition generateTextToImageQuestion (now : Z) (random : nat → Q) (k : nat)
    (shuffleOptions : bool) (sign : QuizSign) (allSigns : list QuizSign)
    : GeneratedQuestion :=
  let options := generateOptions random k shuffleOptions sign allSigns 4 in
  {| gq_type := QuestionType.TEXT_TO_IMAGE;
     gq_sign := sign;
     gq_prompt := name sign;
     gq_options :=
       (λ opt, {| opt_id := id opt; opt_name := name opt;
                  opt_img := Some (img opt);
                  opt_isCorrect := bool_decide (id opt = id sign) |})
       <$> options;
     gq_startTime := now |}.

(** Generate question based on current settings.  In the mixed setting the
    first draw of [Math.random] picks the type. *)
Definition generateQuestion (now : Z) (random : nat → Q) (state : State)
    (sign : QuizSign) (allSigns : list QuizSign) : GeneratedQuestion :=
  let type := questionType state in
  if decide (type = "mixed") then
    if Qlt_le_dec (random 0%nat) (1 # 2)
    then generateImageToTextQuestion now random 1 (shuffleOptions state)
           sign allSigns
    else generateTextToImageQuestion now random 1 (shuffleOptions state)
           sign allSigns
  else if decide (type = QuestionType.TEXT_TO_IMAGE) then
    generateTextToImageQuestion now random 0 (shuffleOptions state)
      sign allSigns
  else
    generateImageToTextQuestion now random 0 (shuffleOptions state)
      sign allSigns.

(** [currentQuestion.options.find(opt => opt.isCorrect)], as [checkAnswer]
    looks the correct option up. *)
Definition correctOption (q : GeneratedQuestion) : option AnswerOption :=
  List.find opt_isCorrect (gq_options q).


(** ** The counters of a running session *)

(** Every question so far was counted once, as right or as wrong, and the
    wrong ones are signs of the quiz. *)
Definition sessionCounted (state : State) : Prop :=
  correctAnswers state + Z.of_nat (length (wrongAnswers state))
  = Z.of_nat (currentQuestion state)
  ∧ 0 ≤ correctAnswers state
  ∧ (currentQuestion state ≤ length (quizSigns state))%nat
  ∧ wrongAnswers state ⊆ quizSigns state.

(** The number of signs of a list that belong to a category. *)
Definition countInCategory (cat : string) (signs : list QuizSign) : Z :=
  Z.of_nat (length (filter (λ s, qcategory s = cat) signs)).

(** ** js/learning/sm2.js, overdue signs and the study recommendation *)

(** Get signs that are overdue. *)
Definition getOverdueCount (now : Z) (progressList : list SignProgress) : nat :=
  length (filter (λ p, nextReviewDate p ≤ now) progressList).

Record StudyRecommendation := {
  rec_mode : string;
  rec_reason : string;
  rec_priority : string
}.

(** Calculate study recommendation. *)
Definition getStudyRecommendation (now : Z) (progressList : list SignProgress)
    (allSigns : list QuizSign) : StudyRecommendation :=
  let overdue := filter (λ p, nextReviewDate p ≤ now) progressList in
  let studied : gset string := list_to_set (signId <$> progressList) in
  let newSigns := filter (λ s, id s ∉ studied) allSigns in
  if (10 <=? length overdue)%nat then
    {| rec_mode := "spaced";
       rec_reason := "Du har " +:+ pretty (length overdue)
                     +:+ " märken att repetera";
       rec_priority := "high" |}
  else if (0 <? length newSigns)%nat && (length overdue <? 5)%nat then
    {| rec_mode := "standard";
       rec_reason := "Lär dig " +:+ pretty (Nat.min 10 (length newSigns))
                     +:+ " nya märken";
       rec_priority := "medium" |}
  else if (0 <? length overdue)%nat then
    {| rec_mode := "spaced";
       rec_reason := "Repetera " +:+ pretty (length overdue) +:+ " märken";
       rec_priority := "medium" |}
  else
    {| rec_mode := "standard";
       rec_reason := "Fortsätt öva för att bibehålla kunskapen";
       rec_priority := "low" |}.

(** ** js/learning/recommendations.js *)

Record Recommendation := {
  r_type : string;
  r_priority : string;
  r_title : string;
  r_description : string;
  r_action : string;
  r_categoryKey : option string;
  r_icon : string
}.

(** The [categoryAccuracy] object: for every category of a progress record,
    in order of first appearance, the right answers and the attempts summed
    over its records. *)
Fixpoint categoryAccuracy (allProgress : list SignProgress)
    (acc : list (string * (Z * Z))) : list (string * (Z * Z)) :=
  match allProgress with
  | [] => acc
  | p :: rest =>
    let acc1 :=
      if decide (category p ∈ acc.*1) then acc
      else acc ++ [(category p, (0, 0))] in
    let acc2 :=
      (λ kv : string * (Z * Z),
         if decide (kv.1 = category p)
         then (kv.1, (kv.2.1 + correctAttempts p, kv.2.2 + totalAttempts p))
         else kv) <$> acc1 in
    categoryAccuracy rest acc2
  end.

#[local] Instance Qlt_decision (x y : Q) : Decision (x < y)%Q :=
  match Qlt_le_dec x y with
  | left Hlt => left Hlt
  | right Hle => right (Qle_not_lt y x Hle)
  end.

(** One entry of [weakCategories] before filtering. *)
Record CategoryScore := {
  score_key : string;
  score_accuracy : Q;
  score_attempts : Z
}.

Definition weakCategories (allProgress : list SignProgress)
    : list CategoryScore :=
  JsArray.sort (λ a b, (score_accuracy a - score_accuracy b)%Q)
    (filter (λ c, 5 ≤ score_attempts c ∧ (score_accuracy c < 7 # 10)%Q)
       ((λ kv : string * (Z * Z),
           {| score_key := kv.1;
              score_accuracy :=
                if 0 <? kv.2.2 then (inject_Z kv.2.1 / inject_Z kv.2.2)%Q
                else 0%Q;
              score_attempts := kv.2.2 |})
        <$> categoryAccuracy allProgress [])).

(** [priorityOrder[priority]]. *)
Definition priorityOrder (priority : string) : Z :=
  if decide (priority = "high") then 0
  else if decide (priority = "medium") then 1
  else 2.

(** Get personalized recommendations, from the progress records, the due
    records and the sessions read from the store.  [toDateString] is the
    calendar day of an instant, as [Date.prototype.toDateString] prints
    it. *)
Definition getPersonalizedRecommendations (toDateString : Z → string)
    (now : Z) (signData : gmap string Category)
    (allProgress dueForReview : list SignProgress)
    (sessions : list QuizSession) : list Recommendation :=
  let pm := progressMap allProgress in
  let categories := (map_to_list signData).*2 in
  let totalSigns :=
    foldl (λ n cat, n + length (cat_signs cat))%nat 0%nat categories in
  let studiedSigns :=
    foldl
      (λ n cat,
         n + length (filter (λ s, is_Some (pm !! sign_id s)) (cat_signs cat)))%nat
      0%nat categories in
  let review :=
    if (0 <? length dueForReview)%nat then
      [{| r_type := "review"; r_priority := "high";
          r_title := "Dags att repetera";
          r_description :=
            "Du har " +:+ pretty (length dueForReview)
            +:+ " märken som är redo för repetition";
          r_action := "spaced"; r_categoryKey := None; r_icon := "🔄" |}]
    else [] in
  let weak :=
    match weakCategories allProgress with
    | weakCat :: _ =>
      let catName :=
        match signData !! score_key weakCat with
        | Some cat => strOr (cat_name cat) (score_key weakCat)
        | None => score_key weakCat
        end in
      [{| r_type := "weak_category"; r_priority := "medium";
          r_title := "Fokusera på svagaste kategorin";
          r_description :=
            catName +:+ " har "
            +:+ pretty (Js.round (score_accuracy weakCat * 100))
            +:+ "% träffsäkerhet";
          r_action := "category";
          r_categoryKey := Some (score_key weakCat); r_icon := "🎯" |}]
    | [] => []
    end in
  let newSignsCount := (Z.of_nat totalSigns - Z.of_nat studiedSigns) in
  let newSigns :=
    if (0 <? newSignsCount) && (length dueForReview <? 10)%nat then
      [{| r_type := "new_signs";
          r_priority := if 50 <? newSignsCount then "medium" else "low";
          r_title := "Lär dig nya märken";
          r_description :=
            pretty newSignsCount +:+ " märken väntar på att upptäckas";
          r_action := "standard"; r_categoryKey := None; r_icon := "📚" |}]
    else [] in
  let today := toDateString now in
  let practicedToday :=
    existsb (λ s, bool_decide (toDateString (qs_date s) = today)) sessions in
  let keepStreak :=
    if negb practicedToday then
      [{| r_type := "streak"; r_priority := "low";
          r_title := "Håll din streak igång";
          r_description := "Du har inte övat idag ännu";
          r_action := "standard"; r_categoryKey := None; r_icon := "🔥" |}]
    else [] in
  let avgAccuracy :=
    if (0 <? length allProgress)%nat then
      (foldl
         (λ sum p,
            sum + inject_Z (correctAttempts p) / inject_Z (totalAttempts p))%Q
         0%Q allProgress
       / inject_Z (Z.of_nat (length allProgress)))%Q
    else 0%Q in
  let challenge :=
    if Qlt_le_dec (8 # 10) avgAccuracy then
      if (20 <? studiedSigns)%nat then
        [{| r_type := "challenge"; r_priority := "low";
            r_title := "Utmana dig själv";
            r_description := "Du är duktig! Prova en svårare quiz";
            r_action := "hard"; r_categoryKey := None; r_icon := "💪" |}]
      else []
    else [] in
  JsArray.sort
    (λ a b, inject_Z (priorityOrder (r_priority a) - priorityOrder (r_priority b)))
    (review ++ weak ++ newSigns ++ keepStreak ++ challenge).

(** ** js/quiz/engine.js, progress and results *)

(** Check if quiz is complete. *)
Definition isQuizComplete (state : State) : bool :=
  bool_decide (length (quizSigns state) ≤ currentQuestion state)%nat.

Record QuizProgress := {
  qp_current : Z;
  qp_total : Z;
  qp_percentage : Q;
  qp_correct : Z;
  qp_streak : Z
}.

(** Get quiz progress. *)
Definition getQuizProgress (state : State) : QuizProgress :=
  let total := Z.of_nat (length (quizSigns state)) in
  let current := Z.of_nat (currentQuestion state) + 1 in
  {| qp_current := current;
     qp_total := total;
     qp_percentage := (inject_Z current / inject_Z total * 100)%Q;
     qp_correct := correctAnswers state;
     qp_streak := streak state |}.

Record QuizResults := {
  qr_totalQuestions : Z;
  qr_correctAnswers : Z;
  qr_incorrectAnswers : Z;
  qr_wrongAnswers : list QuizSign;
  qr_percentage : Z;
  qr_streak : Z;
  qr_bestStreak : Z
}.

(** Get quiz results. *)
Definition getQuizResults (state : State) : QuizResults :=
  let total := Z.of_nat (length (quizSigns state)) in
  {| qr_totalQuestions := total;
     qr_correctAnswers := correctAnswers state;
     qr_incorrectAnswers := total - correctAnswers state;
     qr_wrongAnswers := wrongAnswers state;
     qr_percentage :=
       Js.round (inject_Z (correctAnswers state) / inject_Z total * 100)%Q;
     qr_streak := streak state;
     qr_bestStreak := bestStreak state |}.

(** ** js/learning/recommendations.js, the next best signs *)

(** A catalogue sign with its study score, as [getNextBestSigns] ranks it. *)
Record ScoredSign := {
  ss_sign : Sign;
  ss_category : string;
  ss_categoryName : string;
  ss_score : Q;
  ss_progress : option SignProgress
}.

Record BestSign := {
  bs_id : string;
  bs_name : string;
  bs_img : string;
  bs_category : string;
  bs_categoryName : string;
  bs_mastery : Mastery
}.

(** The study score of one sign: higher is more urgent. *)
Definition studyScore (now : Z) (progress : option SignProgress) : Q :=
  match progress with
  | None => 50
  | Some progress =>
    let retention := getRetentionScore (Some progress) in
    let daysSinceReview :=
      match lastAttemptDate progress with
      | Some last => (inject_Z (now - last) / 86400000)%Q
      | None => 100%Q
      end in
    if nextReviewDate progress <=? now
    then (inject_Z (100 - retention) + daysSinceReview * 2)%Q
    else (10 - inject_Z retention * (1 # 10))%Q
  end.

(** The [scored] array: every sign of every category, in catalogue order. *)
Definition scoredSigns (now : Z) (signEntries : list (string * Category))
    (allProgress : list SignProgress) : list ScoredSign :=
  let pm := progressMap allProgress in
  flat_map
    (λ entry : string * Category,
       (λ sign,
          {| ss_sign := sign; ss_category := entry.1;
             ss_categoryName := cat_name entry.2;
             ss_score := studyScore now (pm !! sign_id sign);
             ss_progress := pm !! sign_id sign |})
       <$> cat_signs entry.2)
    signEntries.

(** Get next best signs to study.  [signEntries] is
    [Object.entries(signData)], in the order of the catalogue. *)
Definition getNextBestSigns (now : Z) (signEntries : list (string * Category))
    (allProgress : list SignProgress) (count : Z) : list BestSign :=
  let scored :=
    JsArray.sort (λ a b, (ss_score b - ss_score a)%Q)
      (scoredSigns now signEntries allProgress) in
  (λ s,
     {| bs_id := sign_id (ss_sign s);
        bs_name := sign_name (ss_sign s);
        bs_img := sign_img (ss_sign s);
        bs_category := ss_category s;
        bs_categoryName := ss_categoryName s;
        bs_mastery :=
          match ss_progress s with
          | Some progress => getMasteryLevel (Some progress)
          | None => {| level := "new"; label := "Ny"; color := "#808080" |}
          end |})
  <$> JsArray.slice0 scored count.

(** * Properties *)

(** ** Retention model *)

Lemma Js_max_lower (a b : Q) : (a <= Js.max a b)%Q.
Proof.
  unfold Js.max. destruct (Qlt_le_dec a b) as [Hlt | Hle].
  - apply Qlt_le_weak, Hlt.
  - apply Qle_refl.
Qed.



(** The new ease factor is the floored sum, whatever the branch taken. *)
Lemma calculateSM2_easeFactor (quality : Z) (ef : Q) (ivl reps : Z) :
  sm2_easeFactor (calculateSM2 quality ef ivl reps)
  = Js.max (13 # 10) (ef + efDelta quality).
Proof. unfold calculateSM2. destruct (quality <? 3); reflexivity. Qed.



Lemma finishQuiz_progress (now : Z) (app : App) :
  SIGN_PROGRESS (app_db (finishQuiz now app)) = SIGN_PROGRESS (app_db app).
Proof.
  unfold finishQuiz. cbn [app_db].
  match goal with
  | |- SIGN_PROGRESS (foldl ?f ?db1 ?totals) = _ =>
    assert (Hinv : ∀ l db, SIGN_PROGRESS (foldl f db l) = SIGN_PROGRESS db)
  end.
  { induction l as [| kv l IH]; intros db; cbn; [reflexivity |].
    by rewrite IH. }
  rewrite Hinv. reflexivity.
Qed.





(** C3. The quality grade of an answer.  A wrong answer is graded 1 when it
    took less than 3000 ms and 0 otherwise.  A right answer is graded on the
    ratio of its time to the average time, the average being replaced by
    3000 when it is absent or zero: 5 below 0.5, 4 below 1, and 3 from 1
    on. *)
Theorem responseToQuality_policy (isCorrect : bool) (responseTimeMs : Q)
    (averageTimeMs : option Q) :
  let q := responseToQuality isCorrect responseTimeMs averageTimeMs in
  let denominator :=
    match averageTimeMs with
    | Some avg => if Qeq_bool avg 0 then 3000%Q else avg
    | None => 3000%Q
    end in
  let ratio := (responseTimeMs / denominator)%Q in
  (isCorrect = false → (responseTimeMs < 3000)%Q → q = 1)
  ∧ (isCorrect = false → (3000 <= responseTimeMs)%Q → q = 0)
  ∧ (isCorrect = true → (ratio < 1 # 2)%Q → q = 5)
  ∧ (isCorrect = true → (1 # 2 <= ratio)%Q → (ratio < 1)%Q → q = 4)
  ∧ (isCorrect = true → (1 <= ratio)%Q → q = 3).
Proof.
  intros q denominator ratio.
  assert (Hden : Js.or_default averageTimeMs 3000 = denominator).
  { subst denominator. unfold Js.or_default.
    destruct averageTimeMs as [avg |]; [| reflexivity].
    destruct (Qeq_dec avg 0) as [Hz | Hnz].
    - apply Qeq_bool_iff in Hz. rewrite Hz. reflexivity.
    - destruct (Qeq_bool avg 0) eqn:Hb; [| reflexivity].
      apply Qeq_bool_iff in Hb. contradiction. }
  subst q. unfold responseToQuality. rewrite Hden. fold ratio.
  destruct isCorrect; cbn [negb].
  - split; [discriminate |]. split; [discriminate |].
    destruct (Qlt_le_dec ratio (1 # 2)) as [H5 | H5];
      [| destruct (Qlt_le_dec ratio 1) as [H4 | H4]];
      repeat split; intros; try reflexivity; exfalso; lra.
  - destruct (Qlt_le_dec responseTimeMs 3000) as [Hfast | Hslow];
      repeat split; intros; try reflexivity; try discriminate; exfalso; lra.
Qed.

Lemma responseToQuality_policy_witness :
  responseToQuality false 2000 (Some 3000%Q) = 1
  ∧ responseToQuality true 2000 None = 4.
Proof.
  pose proof (responseToQuality_policy false 2000 (Some 3000%Q)) as Hwrong.
  pose proof (responseToQuality_policy true 2000 None) as Hright.
  cbv zeta in Hwrong, Hright.
  destruct Hwrong as (Hfast & _).
  destruct Hright as (_ & _ & _ & Hmid & _).
  split.
  - apply Hfast; reflexivity.
  - apply Hmid; [reflexivity | discriminate | reflexivity].
Defined.

(** C4. The retention score is meant to lie in 0..100, but the ease-factor
    term is not capped: four quick right answers on a new sign raise the
    ease factor to 2.9, and the score of that record is 106. *)
Theorem getRetentionScore_above_100 :
  totalAttempts fourQuickAnswers = 4
  ∧ correctAttempts fourQuickAnswers = 4
  ∧ repetitions fourQuickAnswers = 4
  ∧ (easeFactor fourQuickAnswers == 29 # 10)%Q
  ∧ getRetentionScore (Some fourQuickAnswers) = 106.
Proof. vm_compute. repeat split. Qed.

(** Scenario B with the figure of the specification: the new ease factor is
    not 1.6. *)
Lemma scenarioB_easeFactor_not_1_6 :
  ¬ (scenarioB_quality = 0
     ∧ sm2_repetitions scenarioB_result = 0
     ∧ sm2_interval scenarioB_result = 1
     ∧ (sm2_easeFactor scenarioB_result == 16 # 10)%Q).
Proof. intros (_ & _ & _ & Hef). vm_compute in Hef. discriminate Hef. Qed.

(** C8, amended. From the default record, a wrong answer after 5000 ms is
    graded 0, and SM-2 then gives repetitions 0, interval 1 and the ease
    factor 2.5 + (0.1 - 5 * (0.08 + 5 * 0.02)) = 2.5 - 0.8 = 1.7. *)
Theorem scenarioB_wrong_slow_answer :
  scenarioB_quality = 0
  ∧ sm2_repetitions scenarioB_result = 0
  ∧ sm2_interval scenarioB_result = 1
  ∧ (efDelta scenarioB_quality == - (8 # 10))%Q
  ∧ (sm2_easeFactor scenarioB_result == 17 # 10)%Q.
Proof. vm_compute. repeat split. Qed.

(** ** Arrays: sorting and slicing *)

Section SortFacts.
Context {A : Type}.
Implicit Types (cmp : A → A → Q) (l : list A).

Lemma insert_Permutation cmp x l : JsArray.insert cmp x l ≡ₚ x :: l.
Proof.
  induction l as [| y l IH]; cbn; [reflexivity |].
  destruct (Qlt_le_dec 0 (cmp x y)); [| reflexivity].
  rewrite IH. apply Permutation_swap.
Qed.

Lemma sort_Permutation cmp l : JsArray.sort cmp l ≡ₚ l.
Proof.
  induction l as [| x l IH]; cbn; [reflexivity |].
  rewrite insert_Permutation. by rewrite IH.
Qed.

Lemma sort_length cmp l : length (JsArray.sort cmp l) = length l.
Proof. apply Permutation_length, sort_Permutation. Qed.

(** Two comparators that agree on the elements of the array sort it the
    same way. *)
Lemma insert_ext cmp1 cmp2 x l :
  (∀ y, y ∈ l → cmp1 x y = cmp2 x y) →
  JsArray.insert cmp1 x l = JsArray.insert cmp2 x l.
Proof.
  induction l as [| y l IH]; intros Hagree; cbn; [reflexivity |].
  rewrite (Hagree y) by left.
  destruct (Qlt_le_dec 0 (cmp2 x y)); [| reflexivity].
  f_equal. apply IH. intros z Hz. apply Hagree. by right.
Qed.

Lemma sort_ext cmp1 cmp2 l :
  (∀ x y, x ∈ l → y ∈ l → cmp1 x y = cmp2 x y) →
  JsArray.sort cmp1 l = JsArray.sort cmp2 l.
Proof.
  induction l as [| x l IH]; intros Hagree; cbn; [reflexivity |].
  rewrite IH by (intros; apply Hagree; by right).
  apply insert_ext. intros y Hy. apply Hagree; [by left |].
  right. by rewrite <- (sort_Permutation cmp2 l).
Qed.

(** A comparator that orders by a key, largest key first. *)
Section Descending.
Context (cmp : A → A → Q) (key : A → Q).
Hypothesis cmp_key : ∀ a b, (0 < cmp a b)%Q ↔ (key a < key b)%Q.

Lemma insert_descending x l :
  StronglySorted (descending key) l →
  StronglySorted (descending key) (JsArray.insert cmp x l).
Proof.
  induction 1 as [| y l Hsorted IH Hall]; cbn.
  - repeat constructor.
  - destruct (Qlt_le_dec 0 (cmp x y)) as [Hafter | Hbefore].
    + constructor; [exact IH |].
      rewrite insert_Permutation. constructor; [| exact Hall].
      apply Qlt_le_weak, cmp_key, Hafter.
    + assert (Hyx : (key y <= key x)%Q).
      { apply Qnot_lt_le. intros Hlt%cmp_key. lra. }
      constructor; [by constructor |]. constructor; [exact Hyx |].
      eapply Forall_impl; [exact Hall |]. unfold descending.
      intros z Hz. lra.
Qed.

Lemma sort_descending l : StronglySorted (descending key) (JsArray.sort cmp l).
Proof.
  induction l as [| x l IH]; cbn; [constructor |].
  by apply insert_descending.
Qed.

(** Stability: the elements of one key value come out in the order in
    which they went in. *)
Lemma insert_stable (k : Q) x l :
  filter (λ a, key a == k)%Q (JsArray.insert cmp x l)
  = filter (λ a, key a == k)%Q (x :: l).
Proof.
  induction l as [| y l IH]; cbn; [reflexivity |].
  destruct (Qlt_le_dec 0 (cmp x y)) as [Hafter | Hbefore]; [| reflexivity].
  apply cmp_key in Hafter.
  rewrite (filter_cons _ y (JsArray.insert cmp x l)), IH.
  rewrite !filter_cons.
  repeat case_decide; try reflexivity. lra.
Qed.

Lemma sort_stable (k : Q) l :
  filter (λ a, key a == k)%Q (JsArray.sort cmp l)
  = filter (λ a, key a == k)%Q l.
Proof.
  induction l as [| x l IH]; cbn; [reflexivity |].
  rewrite insert_stable, !filter_cons, IH. reflexivity.
Qed.
End Descending.
End SortFacts.

(** Sorting commutes with decorating the elements. *)
Lemma sort_fmap {A B : Type} (g : A → B) (cmpA : A → A → Q) (cmpB : B → B → Q)
    (l : list A) :
  (∀ a b, cmpB (g a) (g b) = cmpA a b) →
  JsArray.sort cmpB (g <$> l) = g <$> JsArray.sort cmpA l.
Proof.
  intros Hcmp. induction l as [| x l IH]; cbn; [reflexivity |].
  rewrite IH. generalize (JsArray.sort cmpA l) as s.
  induction s as [| y s IHs]; cbn; [reflexivity |].
  rewrite Hcmp. destruct (Qlt_le_dec 0 (cmpA x y)); cbn; [| reflexivity].
  by rewrite IHs.
Qed.

Section SliceFacts.
Context {A : Type}.
Implicit Types (l : list A).

Lemma slice0_take l (n : Z) :
  0 ≤ n → JsArray.slice0 l n = take (Z.to_nat n) l.
Proof.
  intros Hn. unfold JsArray.slice0.
  destruct (Z.ltb_spec n 0) as [| _]; [lia |].
  destruct (Z.le_gt_cases n (Z.of_nat (length l))) as [Hle | Hgt].
  - by rewrite Z.min_l.
  - rewrite Z.min_r, Nat2Z.id by lia.
    rewrite !take_ge; [reflexivity | lia | lia].
Qed.

Lemma slice0_length l (n : Z) :
  0 ≤ n → Z.of_nat (length (JsArray.slice0 l n)) = Z.min n (Z.of_nat (length l)).
Proof. intros Hn. rewrite slice0_take, length_take by done. lia. Qed.

Lemma slice0_fmap {B : Type} (f : A → B) l (n : Z) :
  f <$> JsArray.slice0 l n = JsArray.slice0 (f <$> l) n.
Proof. unfold JsArray.slice0. by rewrite fmap_take, length_fmap. Qed.

End SliceFacts.

(** ** Adaptive selection *)

Lemma byPriority_key (prio : QuizSign → Q) (a b : QuizSign) :
  (0 < byPriority prio a b)%Q ↔ (prio a < prio b)%Q.
Proof. unfold byPriority. split; intros; lra. Qed.

(** The adaptive selection is the front of the pool sorted by priority. *)
Lemma selectAdaptive_sorted_front (now : Z) (allProgress : list SignProgress)
    (candidates : list QuizSign) (n : Z) :
  selectAdaptive now allProgress candidates n
  = JsArray.slice0
      (JsArray.sort (byPriority (priorityOf now (progressMap allProgress)))
         candidates) n.
Proof.
  unfold selectAdaptive.
  set (prio := priorityOf now (progressMap allProgress)).
  rewrite (sort_fmap (λ sign, (sign, prio sign)) (byPriority prio))
    by reflexivity.
  rewrite slice0_fmap, <- list_fmap_compose.
  f_equal. apply (list_fmap_id (JsArray.sort (byPriority prio) candidates)).
Qed.

Lemma priorityOf_cases (now : Z) (pm : gmap string SignProgress)
    (s : QuizSign) :
  match pm !! id s with
  | None => priorityOf now pm s = 50%Q
  | Some p =>
    if isDueForReview now (Some p)
    then (priorityOf now pm s == 100 - inject_Z (getRetentionScore (Some p)))%Q
    else (priorityOf now pm s
          == 20 - inject_Z (getRetentionScore (Some p)) * (2 # 10))%Q
  end.
Proof.
  unfold priorityOf. destruct (pm !! id s) as [p |]; [| reflexivity].
  destruct (isDueForReview now (Some p)); [| reflexivity].
  rewrite <- Z.add_opp_r, inject_Z_plus, inject_Z_opp. reflexivity.
Qed.

(** The adaptive case on its own: the scores, the order and the size of the
    selection, for a target count that is not negative. *)
Lemma selectAdaptive_front (now : Z)
    (allProgress : list SignProgress) (candidates : list QuizSign) (n : Z) :
  0 ≤ n →
  let pm := progressMap allProgress in
  let prio := priorityOf now pm in
  let selected := selectAdaptive now allProgress candidates n in
  (∀ s p, pm !! id s = Some p → isDueForReview now (Some p) = true →
     (prio s == 100 - inject_Z (getRetentionScore (Some p)))%Q)
  ∧ (∀ s, pm !! id s = None → prio s = 50%Q)
  ∧ (∀ s p, pm !! id s = Some p → isDueForReview now (Some p) = false →
     (prio s == 20 - inject_Z (getRetentionScore (Some p)) * (2 # 10))%Q)
  ∧ (∃ rest,
       selected ++ rest ≡ₚ candidates
       ∧ StronglySorted (λ a b, (prio b <= prio a)%Q) (selected ++ rest))
  ∧ Z.of_nat (length selected) = Z.min n (Z.of_nat (length candidates)).
Proof.
  intros Hn pm prio selected.
  split; [| split; [| split; [| split]]].
  - intros s p Hp Hdue. pose proof (priorityOf_cases now pm s) as Hc.
    by rewrite Hp, Hdue in Hc.
  - intros s Hp. pose proof (priorityOf_cases now pm s) as Hc.
    by rewrite Hp in Hc.
  - intros s p Hp Hdue. pose proof (priorityOf_cases now pm s) as Hc.
    by rewrite Hp, Hdue in Hc.
  - subst selected. rewrite selectAdaptive_sorted_front. fold pm prio.
    set (sorted := JsArray.sort (byPriority prio) candidates).
    exists (drop (Z.to_nat n) sorted).
    rewrite slice0_take, take_drop by done. split.
    + apply sort_Permutation.
    + apply (sort_descending (byPriority prio) prio (byPriority_key prio)).
  - subst selected. rewrite selectAdaptive_sorted_front.
    by rewrite slice0_length, sort_length.
Qed.

Lemma filter_take_prefix {A : Type} (P : A → Prop) `{∀ x, Decision (P x)}
    (l : list A) (n : nat) :
  filter P (take n l) `prefix_of` filter P l.
Proof.
  exists (filter P (drop n l)). by rewrite <- filter_app, take_drop.
Qed.

(** The adaptive case on its own is a function of the pool, the target
    count, the records of the pool's signs and the time; ties keep the order
    of the pool. *)
Lemma selectAdaptive_stable (now : Z)
    (allProgress1 allProgress2 : list SignProgress)
    (candidates : list QuizSign) (n : Z) :
  (∀ s, s ∈ candidates →
     progressMap allProgress1 !! id s = progressMap allProgress2 !! id s) →
  selectAdaptive now allProgress1 candidates n
  = selectAdaptive now allProgress2 candidates n
  ∧ ∀ k : Q,
      filter (λ s, priorityOf now (progressMap allProgress1) s == k)%Q
        (selectAdaptive now allProgress1 candidates n)
      `prefix_of`
      filter (λ s, priorityOf now (progressMap allProgress1) s == k)%Q
        candidates.
Proof.
  intros Hsame. rewrite !selectAdaptive_sorted_front. split.
  - f_equal. apply sort_ext. intros a b Ha Hb.
    unfold byPriority, priorityOf. by rewrite (Hsame a Ha), (Hsame b Hb).
  - intros k.
    set (prio := priorityOf now (progressMap allProgress1)).
    rewrite <- (sort_stable (byPriority prio) prio (byPriority_key prio) k
                  candidates).
    apply filter_take_prefix.
Qed.

(** ** Shuffling *)

(** A draw of [Math.random] lies in the unit interval, so the index it
    selects is one of [0..i]. *)
Lemma randomIndex_le (u : Q) (i : nat) :
  (0 <= u)%Q → (u < 1)%Q → (randomIndex u i ≤ i)%nat.
Proof.
  intros Hlo Hhi. unfold randomIndex.
  set (m := inject_Z (Z.of_nat i + 1)).
  assert (Hm : (0 < m)%Q).
  { subst m. unfold Qlt; cbn. lia. }
  assert (Hlt : (Qfloor (u * m) < Z.of_nat i + 1)%Z).
  { rewrite Zlt_Qlt. fold m. eapply Qle_lt_trans; [apply Qfloor_le |]. nra. }
  lia.
Qed.

Lemma swap_Permutation {A : Type} (arr : list A) (i j : nat) :
  JsArray.swap arr i j ≡ₚ arr.
Proof.
  unfold JsArray.swap.
  destruct (arr !! i) as [x |] eqn:Hi; [| reflexivity].
  destruct (arr !! j) as [y |] eqn:Hj; [| reflexivity].
  by apply Permutation_insert_swap.
Qed.

Lemma shuffleLoop_Permutation {A : Type} (random : nat → Q) (k i : nat)
    (arr : list A) :
  shuffleLoop random k i arr ≡ₚ arr.
Proof.
  revert k arr. induction i as [| i IH]; intros k arr; cbn; [reflexivity |].
  rewrite IH. apply swap_Permutation.
Qed.

Lemma shuffleArray_Permutation {A : Type} (random : nat → Q) (array : list A) :
  shuffleArray random array ≡ₚ array.
Proof. apply shuffleLoop_Permutation. Qed.

(** Under the contract of [Math.random] every exchange of the shuffle is
    between two positions of the array. *)
Lemma shuffle_swap_in_range {A : Type} (random : nat → Q) (k i : nat)
    (arr : list A) :
  (∀ c, 0 <= random c ∧ random c < 1)%Q →
  (i < length arr)%nat →
  is_Some (arr !! i) ∧ is_Some (arr !! randomIndex (random k) i).
Proof.
  intros Hunit Hi. destruct (Hunit k) as [Hlo Hhi].
  pose proof (randomIndex_le (random k) i Hlo Hhi).
  split; apply lookup_lt_is_Some; lia.
Qed.

(** ** Missed-signs selection *)

Lemma filter_ext_in {A : Type} (P1 P2 : A → Prop)
    `{∀ x, Decision (P1 x)} `{∀ x, Decision (P2 x)} (l : list A) :
  (∀ x, x ∈ l → P1 x ↔ P2 x) → filter P1 l = filter P2 l.
Proof.
  induction l as [| x l IH]; intros Hiff; [reflexivity |].
  rewrite !filter_cons, IH by (intros; apply Hiff; by right).
  pose proof (Hiff x ltac:(by left)).
  repeat case_decide; tauto || reflexivity.
Qed.

Lemma filter_no_ids (l : list QuizSign) :
  filter (λ s, id s ∈ @nil string) l = [].
Proof.
  induction l as [| c cs IH]; [reflexivity |].
  rewrite filter_cons. case_decide as Hc; [by apply elem_of_nil in Hc |].
  exact IH.
Qed.

Section Missed.
Context (random : nat → Q) (lastSession : option QuizSession)
  (candidates : list QuizSign) (n : Z).

Let primary := missedEligible lastSession candidates.
Let remaining := notSelected primary candidates.
Let filler :=
  JsArray.slice0 (shuffleArray random remaining)
    (n - Z.of_nat (length primary)).

Lemma selectMissed_unfold :
  selectMissed random lastSession candidates n
  = if (length primary <? 5)%nat then primary ++ filler else primary.
Proof.
  assert (Hprim :
    match lastSession with
    | Some s =>
      match qs_wrongAnswers s with
      | [] => []
      | wrong =>
        filter (λ s, id s ∈ (list_to_set (wrong.*1) : gset string))
          candidates
      end
    | None => []
    end = primary).
  { subst primary. unfold missedEligible, missedIdsOf.
    destruct lastSession as [s |]; [| by rewrite filter_no_ids].
    destruct (qs_wrongAnswers s) as [| w ws] eqn:Hw.
    - by rewrite filter_no_ids.
    - apply list_filter_iff. intros x. apply elem_of_list_to_set. }
  unfold selectMissed. rewrite Hprim. reflexivity.
Qed.

Lemma remaining_complement :
  remaining = filter (λ s, ¬ id s ∈ missedIdsOf lastSession) candidates.
Proof.
  subst remaining primary. unfold notSelected, missedEligible.
  apply filter_ext_in. intros x Hx. split.
  - intros Hnot Hmissed. apply Hnot, list_elem_of_fmap.
    exists x. split; [reflexivity |]. by apply list_elem_of_filter.
  - intros Hnot (y & Hid & Hy)%list_elem_of_fmap.
    apply list_elem_of_filter in Hy as [Hy _]. apply Hnot. by rewrite Hid.
Qed.

Lemma primary_remaining_length :
  (length primary + length remaining = length candidates)%nat.
Proof.
  rewrite remaining_complement. subst primary. unfold missedEligible.
  rewrite <- length_app. apply Permutation_length, filter_app_complement.
Qed.

Lemma filler_sublist : ∃ shuffled,
  shuffled ≡ₚ remaining ∧ filler `sublist_of` shuffled.
Proof.
  exists (shuffleArray random remaining). split.
  - apply shuffleArray_Permutation.
  - apply sublist_take.
Qed.
End Missed.

(** The missed case on its own, for any latest session.  The first
    hypothesis is the contract of [Math.random], under which the exchanges
    of the shuffle stay inside the array ([shuffle_swap_in_range]); the
    second says that the pool lists every sign once. *)
Lemma selectMissed_spec (random : nat → Q) (lastSession : option QuizSession)
    (candidates : list QuizSign) (n : Z) :
  (∀ c, 0 <= random c ∧ random c < 1)%Q →
  NoDup (id <$> candidates) →
  let primary := missedEligible lastSession candidates in
  let selected := selectMissed random lastSession candidates n in
  primary `prefix_of` selected
  ∧ selected ⊆ candidates
  ∧ NoDup (id <$> selected)
  ∧ ((length primary < 5)%nat → Z.of_nat (length primary) ≤ n →
       Z.of_nat (length selected) = Z.min n (Z.of_nat (length candidates)))
  ∧ ((5 ≤ length primary)%nat → selected = primary)
  ∧ (length primary = 3%nat → n = 10 → (10 ≤ length candidates)%nat →
       length selected = 10%nat).
Proof.
  intros Hunit Hnodup primary selected.
  pose proof (selectMissed_unfold random lastSession candidates n) as Hsel.
  pose proof (primary_remaining_length lastSession candidates) as Hlen.
  destruct (filler_sublist random lastSession candidates n)
    as (shuffled & Hperm & Hsub).
  cbv zeta in Hsel, Hlen, Hperm, Hsub. fold primary in Hsel, Hlen, Hperm, Hsub.
  fold selected in Hsel.
  set (remaining := notSelected primary candidates) in *.
  set (filler := JsArray.slice0 _ _) in *.
  assert (Hprim_sub : primary ⊆ candidates) by apply list_subseteq_filter.
  assert (Hprim_nodup : NoDup (id <$> primary)).
  { apply (sublist_NoDup _ (id <$> candidates)); [exact Hnodup |].
    apply fmap_sublist. unfold primary, missedEligible. apply sublist_filter. }
  assert (Hfill_in : ∀ s, s ∈ filler → s ∈ remaining).
  { intros s Hs. rewrite <- Hperm.
    by apply (sublist_subseteq _ _ Hsub). }
  assert (Hfill_len : 0 ≤ n - Z.of_nat (length primary) →
            Z.of_nat (length filler)
            = Z.min (n - Z.of_nat (length primary))
                (Z.of_nat (length remaining))).
  { intros Hpos. subst filler.
    rewrite slice0_length by done.
    by rewrite (Permutation_length (shuffleArray_Permutation random remaining)). }
  destruct (Nat.ltb_spec (length primary) 5) as [Hfew | Hmany].
  - assert (Hnodup' : NoDup (id <$> primary ++ filler)).
    { rewrite fmap_app. apply NoDup_app. split; [exact Hprim_nodup |]. split.
      - intros i Hi (s & -> & Hs)%list_elem_of_fmap.
        apply Hfill_in, list_elem_of_filter in Hs as [Hs _]. by apply Hs.
      - apply (sublist_NoDup _ (id <$> shuffled)); [| apply fmap_sublist, Hsub].
        rewrite Hperm.
        apply (sublist_NoDup _ (id <$> candidates)); [exact Hnodup |].
        apply fmap_sublist. unfold remaining, notSelected.
        apply sublist_filter. }
    rewrite Hsel. repeat split.
    + by apply prefix_app_r.
    + intros s [Hs | Hs]%elem_of_app; [by apply Hprim_sub |].
      apply Hfill_in, list_elem_of_filter in Hs as [_ Hs]. exact Hs.
    + exact Hnodup'.
    + intros _ Hn. rewrite length_app, Nat2Z.inj_add, Hfill_len by lia. lia.
    + intros Hfive. lia.
    + intros H3 -> H10.
      assert (Hz : Z.of_nat (length (primary ++ filler)) = 10).
      { rewrite length_app, Nat2Z.inj_add, Hfill_len by lia. lia. }
      lia.
  - rewrite Hsel. repeat split; try done; intros; lia.
Qed.

(** ** Selection by mode *)

Lemma selectQuizSigns_adaptive_case (now : Z) (random : nat → Q) (db : Store)
    (state : State) :
  quizMode state = "adaptive" →
  (selectQuizSigns now random db state).1
  = selectAdaptive now (getAllProgress db) (candidatePool state)
      (questionsPerQuiz state).
Proof.
  intros Hmode. unfold selectQuizSigns. cbn [fst]. rewrite Hmode.
  repeat case_decide; done.
Qed.

Lemma selectQuizSigns_missed_case (now : Z) (random : nat → Q) (db : Store)
    (state : State) :
  quizMode state = "missed" →
  (selectQuizSigns now random db state).1
  = selectMissed random (getLatestQuizSession db) (candidatePool state)
      (questionsPerQuiz state).
Proof.
  intros Hmode. unfold selectQuizSigns. cbn [fst]. rewrite Hmode.
  repeat case_decide; done.
Qed.

(** The session found by [getLatestQuizSession] is one of the stored
    sessions and none is more recent. *)
Lemma getLatestQuizSession_latest (db : Store) :
  match getLatestQuizSession db with
  | None => getAllSessions db = []
  | Some s =>
    s ∈ getAllSessions db
    ∧ ∀ s', s' ∈ getAllSessions db → qs_date s' ≤ qs_date s
  end.
Proof.
  unfold getLatestQuizSession.
  set (cmp := λ a b : QuizSession, inject_Z (qs_date b - qs_date a)).
  set (key := λ a : QuizSession, inject_Z (qs_date a)).
  assert (Hkey : ∀ a b, (0 < cmp a b)%Q ↔ (key a < key b)%Q).
  { intros a b. unfold cmp, key, Qlt, inject_Z. cbn. lia. }
  pose proof (sort_Permutation cmp (getAllSessions db)) as Hperm.
  pose proof (sort_descending cmp key Hkey (getAllSessions db)) as Hsorted.
  destruct (JsArray.sort cmp (getAllSessions db)) as [| s rest]; cbn.
  - by apply Permutation_nil.
  - split; [rewrite <- Hperm; by left |].
    intros s' Hs'. rewrite <- Hperm in Hs'.
    apply StronglySorted_inv in Hsorted as [_ Hall].
    apply elem_of_cons in Hs' as [-> | Hs']; [lia |].
    rewrite Forall_forall in Hall. specialize (Hall s' Hs').
    unfold descending, key in Hall. by rewrite Zle_Qle.
Qed.



(** With the pool and the progress records unchanged, a selection made
    before the due date of A1 and one made at the due date differ: the clock
    read by [isDueForReview] is an input too. *)
Lemma selectQuizSigns_adaptive_depends_on_clock :
  (selectQuizSigns 1000 alwaysZero oneWrongAnswer demoState).1
  ≠ (selectQuizSigns 86400000 alwaysZero oneWrongAnswer demoState).1.
Proof. vm_compute. discriminate. Qed.

(** C6, amended. Adaptive selection is a function of the pool, the target
    count, the progress records of the pool's signs and the current time:
    two calls that agree on these return the same ordered list, whatever
    the random source.  Ties keep the order of the pool: for every score,
    the selected signs of that score are an initial part of the pool's signs
    of that score, in pool order. *)
Theorem selectQuizSigns_adaptive_deterministic (now : Z)
    (random1 random2 : nat → Q) (db1 db2 : Store) (state : State) :
  quizMode state = "adaptive" →
  (∀ s, s ∈ candidatePool state →
     progressMap (getAllProgress db1) !! id s
     = progressMap (getAllProgress db2) !! id s) →
  (selectQuizSigns now random1 db1 state).1
  = (selectQuizSigns now random2 db2 state).1
  ∧ ∀ k : Q,
      filter (λ s, priorityOf now (progressMap (getAllProgress db1)) s == k)%Q
        (selectQuizSigns now random1 db1 state).1
      `prefix_of`
      filter (λ s, priorityOf now (progressMap (getAllProgress db1)) s == k)%Q
        (candidatePool state).
Proof.
  intros Hmode Hsame. rewrite !selectQuizSigns_adaptive_case by done.
  by apply selectAdaptive_stable.
Qed.

Lemma selectQuizSigns_adaptive_deterministic_witness :
  (selectQuizSigns 1000 alwaysZero oneWrongAnswer demoState).1
  = (selectQuizSigns 1000 (λ _, 1 # 2) oneWrongAnswerElsewhere demoState).1.
Proof.
  apply (selectQuizSigns_adaptive_deterministic 1000 alwaysZero (λ _, 1 # 2)
           oneWrongAnswer oneWrongAnswerElsewhere demoState).
  - reflexivity.
  - intros s Hs.
    assert (Hpool : candidatePool demoState = sampleSign <$> ["A1"; "A2"; "A3"])
      by (vm_compute; reflexivity).
    rewrite Hpool in Hs. cbn in Hs.
    repeat (apply elem_of_cons in Hs as [-> | Hs]; [vm_compute; reflexivity |]).
    by apply elem_of_nil in Hs.
Defined.

(** With six missed signs in a pool of ten and a target of ten, the primary
    selection is short of the target, and still nothing is appended: the
    result has six signs. *)
Lemma selectQuizSigns_missed_six_of_ten :
  ¬ (Z.of_nat
       (length (missedEligible (getLatestQuizSession sixMissedStore)
                  (candidatePool missedState)))
     < questionsPerQuiz missedState →
     Z.of_nat (length (selectQuizSigns 0 alwaysZero sixMissedStore missedState).1)
     = Z.min (questionsPerQuiz missedState)
         (Z.of_nat (length (candidatePool missedState)))).
Proof. vm_compute. intros Hfill. specialize (Hfill eq_refl). discriminate. Qed.

(** C7, amended. The missed mode first takes the pool's signs of the wrong-
    answer list of the most recent session.  When fewer than five were found
    (and the target count is not below their number) it appends signs drawn
    at random from the rest of the pool until the selection has exactly
    [min n (pool size)] signs; with five or more it returns them as they
    are.  The appended signs never replace or repeat a selected one.  In
    particular three missed signs, a pool of at least ten and a target of
    ten give ten distinct signs. *)
Theorem selectQuizSigns_missed_fill (now : Z) (random : nat → Q) (db : Store)
    (state : State) :
  quizMode state = "missed" →
  (∀ c, 0 <= random c ∧ random c < 1)%Q →
  NoDup (id <$> candidatePool state) →
  let pool := candidatePool state in
  let n := questionsPerQuiz state in
  let latest := getLatestQuizSession db in
  let primary := missedEligible latest pool in
  let selected := (selectQuizSigns now random db state).1 in
  match latest with
  | None => getAllSessions db = []
  | Some s =>
    s ∈ getAllSessions db
    ∧ ∀ s', s' ∈ getAllSessions db → qs_date s' ≤ qs_date s
  end
  ∧ primary `prefix_of` selected
  ∧ selected ⊆ pool
  ∧ NoDup (id <$> selected)
  ∧ ((length primary < 5)%nat → Z.of_nat (length primary) ≤ n →
       Z.of_nat (length selected) = Z.min n (Z.of_nat (length pool)))
  ∧ ((5 ≤ length primary)%nat → selected = primary)
  ∧ (length primary = 3%nat → n = 10 → (10 ≤ length pool)%nat →
       length selected = 10%nat).
Proof.
  intros Hmode Hunit Hnodup pool n latest primary selected. subst selected.
  rewrite selectQuizSigns_missed_case by done.
  split; [apply getLatestQuizSession_latest |].
  exact (selectMissed_spec random latest pool n Hunit Hnodup).
Qed.

Lemma selectQuizSigns_missed_fill_witness :
  length (selectQuizSigns 0 alwaysZero
            (storeWithSession (sessionMissing ["A2"; "A5"; "A9"]))
            missedState).1 = 10%nat.
Proof.
  pose proof (selectQuizSigns_missed_fill 0 alwaysZero
                (storeWithSession (sessionMissing ["A2"; "A5"; "A9"]))
                missedState) as Hfill.
  cbv zeta in Hfill.
  destruct Hfill as (_ & _ & _ & _ & _ & _ & Hten).
  - reflexivity.
  - intros c. unfold alwaysZero. split; [apply Qle_refl | reflexivity].
  - apply (bool_decide_unpack _). vm_compute. reflexivity.
  - apply Hten; [vm_compute; reflexivity | reflexivity | vm_compute; lia].
Defined.

(** ** Session controller *)

Lemma selectQuizSigns_stored (now : Z) (random : nat → Q) (db : Store)
    (state : State) :
  quizSigns (selectQuizSigns now random db state).2
  = (selectQuizSigns now random db state).1
  ∧ currentScreen (selectQuizSigns now random db state).2 = currentScreen state.
Proof. split; reflexivity. Qed.



(** *** Driving whole sessions *)

Lemma finishQuiz_sessions (now : Z) (app : App) :
  QUIZ_SESSIONS (app_db (finishQuiz now app))
  = QUIZ_SESSIONS (app_db app)
    ++ [sessionRecord now
          (withSession (app_state app) (quizSigns (app_state app))
             (currentQuestion (app_state app)) (correctAnswers (app_state app))
             (streak (app_state app)) (bestStreak (app_state app))
             (wrongAnswers (app_state app)) (quizStartTime (app_state app))
             (Some now))].
Proof.
  unfold finishQuiz. cbn [app_db].
  generalize (categoryTotals
    (quizSigns
       (withSession (app_state app) (quizSigns (app_state app))
          (currentQuestion (app_state app)) (correctAnswers (app_state app))
          (streak (app_state app)) (bestStreak (app_state app))
          (wrongAnswers (app_state app)) (quizStartTime (app_state app))
          (Some now))) []) as totals.
  intros totals.
  match goal with
  | |- QUIZ_SESSIONS (foldl ?f ?db1 totals) = _ =>
    assert (Hinv : ∀ db, QUIZ_SESSIONS (foldl f db totals) = QUIZ_SESSIONS db)
  end.
  { induction totals as [| kv totals IH]; intros db; cbn; [reflexivity |].
    by rewrite IH. }
  rewrite Hinv. reflexivity.
Qed.

(** C10. The session record written by [finishQuiz] stores, as its best
    streak, the maximum of the streak at the end of the session and the
    state's best streak.  That best streak is read back from the saved
    settings and is not reset when a session starts, so it spans sessions:
    after a first session with a streak of three, a second session whose
    streaks never exceed one is still stored with best streak three. *)
Theorem finishQuiz_bestStreak_lifetime :
  (∀ now app, ∃ s,
     QUIZ_SESSIONS (app_db (finishQuiz now app))
     = QUIZ_SESSIONS (app_db app) ++ [s]
     ∧ qs_bestStreak s
       = Z.max (streak (app_state app)) (bestStreak (app_state app)))
  ∧ (∀ now state, bestStreak (resetQuizState now state) = bestStreak state)
  ∧ (∀ parsed state,
       bestStreak (loadSettings (Some parsed) state)
       = numOr (set_bestStreak parsed) 0)
  ∧ firstSession.1 = [1; 2; 3]
  ∧ secondSession.1 = [1; 0; 0]
  ∧ qs_bestStreak <$> QUIZ_SESSIONS (app_db secondSession.2) = [3; 3].
Proof.
  split; [| split; [| split; [| split; [| split]]]].
  - intros now app. eexists. split; [apply finishQuiz_sessions |]. reflexivity.
  - reflexivity.
  - reflexivity.
  - vm_compute. reflexivity.
  - vm_compute. reflexivity.
  - vm_compute. reflexivity.
Qed.

(** * Further properties of the sources *)

(** ** Grades and schedules *)

(** X1. The grade of an answer is one of 0, 1, 3, 4, 5: it is at least 3
    exactly for a right answer, and the grade 2 is never given. *)
Theorem responseToQuality_range (isCorrect : bool) (responseTimeMs : Q)
    (averageTimeMs : option Q) :
  let q := responseToQuality isCorrect responseTimeMs averageTimeMs in
  (3 <=? q) = isCorrect ∧ 0 ≤ q ≤ 5 ∧ q ≠ 2.
Proof.
  unfold responseToQuality. destruct isCorrect; cbn [negb].
  - destruct (Qlt_le_dec _ (1 # 2)); [| destruct (Qlt_le_dec _ 1)];
      repeat split; first [reflexivity | discriminate].
  - destruct (Qlt_le_dec responseTimeMs 3000);
      repeat split; first [reflexivity | discriminate].
Qed.

Lemma quality_tells_correct (isCorrect : bool) (responseTimeMs : Q)
    (averageTimeMs : option Q) :
  (3 <=? responseToQuality isCorrect responseTimeMs averageTimeMs) = isCorrect.
Proof.
  unfold responseToQuality. destruct isCorrect; cbn [negb].
  - destruct (Qlt_le_dec _ (1 # 2)); [| destruct (Qlt_le_dec _ 1)];
      reflexivity.
  - destruct (Qlt_le_dec responseTimeMs 3000); reflexivity.
Qed.

Lemma applyAnswer_quality (now : Z) (p : SignProgress) (isCorrect : bool)
    (responseTimeMs : Q) :
  ∃ q, lastQuality (applyAnswer now p isCorrect responseTimeMs) = Some q
       ∧ (3 <=? q) = isCorrect
       ∧ repetitions (applyAnswer now p isCorrect responseTimeMs)
         = sm2_repetitions (calculateSM2 q (easeFactor p) (interval p)
                              (repetitions p))
       ∧ interval (applyAnswer now p isCorrect responseTimeMs)
         = sm2_interval (calculateSM2 q (easeFactor p) (interval p)
                           (repetitions p)).
Proof.
  eexists. split; [reflexivity |]. split; [| split; reflexivity].
  apply quality_tells_correct.
Qed.


Lemma updateWithSM2_old (now : Z) (db : Store) (sid cat : string)
    (isCorrect : bool) (responseTimeMs : Q) :
  (updateWithSM2 now db sid cat isCorrect responseTimeMs).1
  = applyAnswer now (default (newProgress now sid cat) (getProgress db sid))
      isCorrect responseTimeMs.
Proof. unfold updateWithSM2. by destruct (getProgress db sid). Qed.


(** Rounding is monotone and leaves integers where they are. *)
Lemma Js_round_mono (x y : Q) : (x <= y)%Q → Js.round x ≤ Js.round y.
Proof. intros Hxy. unfold Js.round. apply Qfloor_resp_le. lra. Qed.

Lemma Js_round_Z (n : Z) : Js.round (inject_Z n) = n.
Proof.
  unfold Js.round.
  assert (Hlo : n ≤ Qfloor (inject_Z n + (1 # 2))).
  { rewrite <- (Qfloor_Z n) at 1. apply Qfloor_resp_le. lra. }
  assert (Hhi : Qfloor (inject_Z n + (1 # 2)) < n + 1).
  { rewrite Zlt_Qlt. eapply Qle_lt_trans; [apply Qfloor_le |].
    rewrite inject_Z_plus. change (inject_Z 1) with 1%Q. lra. }
  lia.
Qed.

Lemma Js_round_ge (n : Z) (x : Q) : (inject_Z n <= x)%Q → n ≤ Js.round x.
Proof. intros Hx. rewrite <- (Js_round_Z n). by apply Js_round_mono. Qed.

Lemma Js_round_le (n : Z) (x : Q) : (x <= inject_Z n)%Q → Js.round x ≤ n.
Proof. intros Hx. rewrite <- (Js_round_Z n). by apply Js_round_mono. Qed.

(** The interval computed for a third or later repetition is not shorter
    than the one before. *)
Lemma grown_interval (ivl : Z) (ef : Q) :
  0 ≤ ivl → (13 # 10 <= ef)%Q → ivl ≤ Js.round (inject_Z ivl * ef).
Proof.
  intros Hivl Hef. apply Js_round_ge.
  assert (Hq : (0 <= inject_Z ivl)%Q) by (unfold Qle; cbn; lia).
  nra.
Qed.

Lemma applyAnswer_scheduled (now : Z) (p : SignProgress) (isCorrect : bool)
    (responseTimeMs : Q) :
  answerable p → scheduled (applyAnswer now p isCorrect responseTimeMs).
Proof.
  intros Hp. unfold scheduled, applyAnswer.
  cbn [totalAttempts correctAttempts easeFactor repetitions interval].
  set (q := responseToQuality _ _ _).
  rewrite calculateSM2_easeFactor.
  pose proof (Js_max_lower (13 # 10) (easeFactor p + efDelta q)) as Hef.
  unfold calculateSM2. fold (Js.max (13 # 10) (easeFactor p + efDelta q)).
  set (ef' := Js.max _ _) in *.
  assert (Hcount : 1 ≤ totalAttempts p + 1
                   ∧ 0 ≤ (if isCorrect then correctAttempts p + 1
                          else correctAttempts p) ≤ totalAttempts p + 1).
  { destruct Hp as [(? & ? & _) | (-> & -> & _)]; destruct isCorrect; lia. }
  destruct Hcount as [Htotal Hcorrect].
  split; [exact Htotal |]. split; [exact Hcorrect |]. split; [exact Hef |].
  destruct (Z.ltb_spec q 3) as [Hlow | Hhigh];
    cbn [sm2_repetitions sm2_interval].
  - repeat split; intros; lia.
  - assert (Hreps : 0 ≤ repetitions p)
      by (destruct Hp as [(_ & _ & _ & ? & _) | (_ & _ & ->)]; lia).
    split; [lia |].
    destruct (Z.eqb_spec (repetitions p + 1) 1) as [H1 | H1];
      [split; intros; lia |].
    destruct (Z.eqb_spec (repetitions p + 1) 2) as [H2 | H2];
      [split; intros; lia |].
    split; [intros; lia |]. intros _.
    destruct Hp as [(_ & _ & _ & _ & _ & Hsix) | (_ & _ & Hzero)]; [| lia].
    pose proof (grown_interval (interval p) ef' ltac:(lia) Hef). lia.
Qed.

(** Reading the store after a [put]. *)
Lemma getProgress_putProgress (db : Store) (p : SignProgress) (key : string) :
  getProgress (putProgress db p) key
  = if decide (key = signId p) then Some p else getProgress db key.
Proof.
  unfold getProgress, putProgress. cbn [SIGN_PROGRESS].
  case_decide as Hkey.
  - subst key. apply lookup_insert_eq.
  - by apply lookup_insert_ne.
Qed.

Lemma updateWithSM2_preserves_scheduled (now : Z) (db : Store)
    (sid cat : string) (isCorrect : bool) (responseTimeMs : Q) :
  storeScheduled db →
  storeScheduled (updateWithSM2 now db sid cat isCorrect responseTimeMs).2.
Proof.
  intros Hdb key p. unfold updateWithSM2. cbn [snd].
  set (old := match getProgress db sid with
              | Some p => p
              | None => newProgress now sid cat
              end).
  assert (Hold : signId old = sid ∧ answerable old).
  { subst old. destruct (getProgress db sid) as [p0 |] eqn:Hp0.
    - destruct (Hdb sid p0 Hp0) as [Hid Hsched]. split; [done | by left].
    - split; [reflexivity |]. right. repeat split. }
  destruct Hold as [Hid Hans].
  rewrite getProgress_putProgress.
  change (signId (applyAnswer now old isCorrect responseTimeMs))
    with (signId old).
  rewrite Hid. case_decide as Hkey.
  - subst key. intros [= <-].
    split; [exact Hid | by apply applyAnswer_scheduled].
  - apply Hdb.
Qed.

Lemma engineStep_preserves_scheduled (app app' : App) :
  engineStep app app' →
  storeScheduled (app_db app) → storeScheduled (app_db app').
Proof.
  intros Hstep Hinv. destruct Hstep as [now random app | now app
    | now opt app | app | now app]; cbn [app_db]; try exact Hinv.
  - unfold loadCurrentQuestion. by destruct (_ !! _).
  - unfold checkAnswer. destruct (app_question app) as [question |];
      [| exact Hinv].
    destruct (updateStreak _ _ _) as [state2 ls]. cbn [snd app_db].
    by apply updateWithSM2_preserves_scheduled.
  - intros key q. unfold getProgress. rewrite finishQuiz_progress.
    apply Hinv.
Qed.

(** X3. The store stays well formed.  One [updateWithSM2] on a well-formed
    store gives a well-formed store, and so does every operation of the
    engine; hence every record of a store reached from a fresh installation
    is filed under its own sign id, has at least one attempt, between 0 and
    that many right answers, a repetition count that is not negative, an
    interval of one day for at most one repetition and of at least six days
    from the second repetition on. *)
Theorem store_stays_scheduled :
  (∀ now db sid cat isCorrect responseTimeMs,
     storeScheduled db →
     storeScheduled (updateWithSM2 now db sid cat isCorrect responseTimeMs).2)
  ∧ (∀ app key p,
       reachable app → getProgress (app_db app) key = Some p →
       signId p = key
       ∧ 1 ≤ totalAttempts p
       ∧ 0 ≤ correctAttempts p ≤ totalAttempts p
       ∧ 0 ≤ repetitions p
       ∧ (repetitions p ≤ 1 → interval p = 1)
       ∧ (2 ≤ repetitions p → 6 ≤ interval p)).
Proof.
  split; [apply updateWithSM2_preserves_scheduled |].
  intros app key p (app0 & Hfresh & Hsteps) Hp.
  assert (Hinv : storeScheduled (app_db app)).
  { assert (Hstart : storeScheduled (app_db app0)).
    { rewrite Hfresh. intros k q Hq. unfold getProgress in Hq. cbn in Hq.
      by rewrite lookup_empty in Hq. }
    clear Hfresh Hp.
    induction Hsteps as [app0 | app0 app1 app2 Hstep Hsteps IH];
      [exact Hstart |].
    apply IH. by apply (engineStep_preserves_scheduled app0). }
  destruct (Hinv key p Hp) as (Hid & ? & ? & _ & ? & ? & ?).
  repeat split; first [done | lia].
Qed.

Lemma store_stays_scheduled_witness :
  ∃ p, getProgress (app_db (checkAnswer 0 "A2" freshAppAskingA1).2) "A1"
       = Some p
       ∧ 1 ≤ totalAttempts p ∧ interval p = 1.
Proof.
  destruct store_stays_scheduled as [_ Hreach].
  destruct (getProgress (app_db (checkAnswer 0 "A2" freshAppAskingA1).2) "A1")
    as [p |] eqn:Hp; [| vm_compute in Hp; discriminate].
  exists p. split; [reflexivity |].
  destruct (Hreach (checkAnswer 0 "A2" freshAppAskingA1).2 "A1" p)
    as (_ & Htotal & _ & _ & Hone & _); [| exact Hp |].
  - exists freshAppAskingA1. split; [reflexivity |].
    apply rtc_once, step_checkAnswer.
  - split; [exact Htotal |]. apply Hone.
    vm_compute in Hp. injection Hp as <-. vm_compute. discriminate.
Defined.

Lemma emptyStore_scheduled : storeScheduled emptyStore.
Proof.
  intros key p Hp. unfold getProgress in Hp. cbn in Hp.
  by rewrite lookup_empty in Hp.
Qed.

(** X4. In a well-formed store a right answer never shortens the interval
    of a sign: the new interval is at least the old one. *)
Theorem right_answer_keeps_interval (now : Z) (db : Store)
    (sid cat : string) (responseTimeMs : Q) (old : SignProgress) :
  storeScheduled db →
  getProgress db sid = Some old →
  interval old
  ≤ interval (updateWithSM2 now db sid cat true responseTimeMs).1.
Proof.
  intros Hdb Hold. rewrite updateWithSM2_old, Hold.
  change (default (newProgress now sid cat) (Some old)) with old.
  destruct (Hdb sid old Hold) as (_ & _ & _ & Hef & Hreps & Hone & Hsix).
  destruct (applyAnswer_quality now old true responseTimeMs)
    as (q & _ & Hq & _ & ->).
  apply Z.leb_le in Hq. unfold calculateSM2.
  destruct (Z.ltb_spec q 3) as [| _]; [lia |]. cbn [sm2_interval].
  destruct (Z.eqb_spec (repetitions old + 1) 1); [lia |].
  destruct (Z.eqb_spec (repetitions old + 1) 2); [lia |].
  apply grown_interval; [lia | apply Js_max_lower].
Qed.

Lemma right_answer_keeps_interval_witness :
  interval (updateWithSM2 0 emptyStore "A1" "warning" true 1000).1
  ≤ interval
      (updateWithSM2 9 (updateWithSM2 0 emptyStore "A1" "warning" true 1000).2
         "A1" "warning" true 400).1.
Proof.
  apply (right_answer_keeps_interval 9
           (updateWithSM2 0 emptyStore "A1" "warning" true 1000).2
           "A1" "warning" 400).
  - apply updateWithSM2_preserves_scheduled, emptyStore_scheduled.
  - vm_compute. reflexivity.
Defined.



(** ** The running average of the response time *)

Lemma inject_Z_succ_pos (n : Z) : 0 ≤ n → (0 < inject_Z (n + 1))%Q.
Proof. intros Hn. unfold Qlt. cbn. lia. Qed.

(** X6. The average response time is a running mean.  On the first attempt
    the new average is the response time itself: the initial figure of
    3000 ms does not enter it.  On a later attempt the new average times the
    new number of attempts is the old average times the old number plus the
    response time, so the new average lies between the old one and the
    response time. *)
Theorem averageResponseTime_running_mean (now : Z) (db : Store)
    (sid cat : string) (isCorrect : bool) (responseTimeMs : Q) :
  let p := (updateWithSM2 now db sid cat isCorrect responseTimeMs).1 in
  (getProgress db sid = None → (averageResponseTime p == responseTimeMs)%Q)
  ∧ (∀ old, getProgress db sid = Some old → 0 ≤ totalAttempts old →
       (averageResponseTime p * inject_Z (totalAttempts old + 1)
        == averageResponseTime old * inject_Z (totalAttempts old)
           + responseTimeMs)%Q
       ∧ (Js.min (averageResponseTime old) responseTimeMs
          <= averageResponseTime p)%Q
       ∧ (averageResponseTime p
          <= Js.max (averageResponseTime old) responseTimeMs)%Q).
Proof.
  intros p. subst p. rewrite updateWithSM2_old. split.
  - intros ->.
    change (default (newProgress now sid cat) None)
      with (newProgress now sid cat).
    unfold applyAnswer, newProgress.
    cbn [averageResponseTime totalAttempts].
    change (inject_Z (0 + 1 - 1)) with 0%Q.
    change (inject_Z (0 + 1)) with 1%Q. field.
  - intros old -> Htotal.
    change (default (newProgress now sid cat) (Some old)) with old.
    unfold applyAnswer. cbn [averageResponseTime].
    replace (totalAttempts old + 1 - 1) with (totalAttempts old) by lia.
    set (a := averageResponseTime old). set (n := inject_Z (totalAttempts old)).
    pose proof (inject_Z_succ_pos _ Htotal) as Hpos.
    set (m := inject_Z (totalAttempts old + 1)) in *.
    assert (Hm : (m == n + 1)%Q)
      by (subst m n; rewrite inject_Z_plus; reflexivity).
    assert (Hn : (0 <= n)%Q) by (subst n; unfold Qle; cbn; lia).
    assert (Hmean : ((a * n + responseTimeMs) / m * m
                     == a * n + responseTimeMs)%Q)
      by (field; lra).
    split; [exact Hmean |].
    unfold Js.min, Js.max.
    split.
    + apply Qle_shift_div_l; [exact Hpos |].
      destruct (Qlt_le_dec responseTimeMs a); nra.
    + apply Qle_shift_div_r; [exact Hpos |].
      destruct (Qlt_le_dec a responseTimeMs); nra.
Qed.

Lemma averageResponseTime_running_mean_witness :
  (averageResponseTime
     (updateWithSM2 0 emptyStore "A1" "warning" true 1000).1 == 1000)%Q.
Proof.
  destruct (averageResponseTime_running_mean 0 emptyStore "A1" "warning"
              true 1000) as [Hfirst _].
  apply Hfirst. reflexivity.
Defined.

(** ** The retention score *)

Lemma accuracy_bounds (c t : Z) :
  0 ≤ c ≤ t → 0 < t → (0 <= inject_Z c / inject_Z t <= 1)%Q.
Proof.
  intros Hc Ht.
  assert (Htq : (0 < inject_Z t)%Q) by (unfold Qlt; cbn; lia).
  assert (Hcq : (0 <= inject_Z c)%Q) by (unfold Qle; cbn; lia).
  assert (Hct : (inject_Z c <= inject_Z t)%Q) by (rewrite <- Zle_Qle; lia).
  split.
  - apply Qle_shift_div_l; [exact Htq | nra].
  - apply Qle_shift_div_r; [exact Htq | nra].
Qed.

Lemma repsFactor_bounds (r : Z) :
  0 ≤ r → (0 <= Js.min 1 (inject_Z r / 5) <= 1)%Q.
Proof.
  intros Hr. assert (Hrq : (0 <= inject_Z r)%Q) by (unfold Qle; cbn; lia).
  assert (Hd : (0 <= inject_Z r / 5)%Q)
    by (apply Qle_shift_div_l; [reflexivity | lra]).
  set (d := (inject_Z r / 5)%Q) in *.
  unfold Js.min. destruct (Qlt_le_dec d 1); lra.
Qed.

(** X7. The retention score of a record with attempts, no more right
    answers than attempts, an ease factor of at least 1.3 and a repetition
    count that is not negative is never negative; it is at most 100 as long
    as the ease factor does not exceed 2.5, the value of a new record. *)
Theorem getRetentionScore_bounds (p : SignProgress) :
  0 ≤ correctAttempts p ≤ totalAttempts p →
  0 ≤ repetitions p →
  (13 # 10 <= easeFactor p)%Q →
  0 ≤ getRetentionScore (Some p)
  ∧ ((easeFactor p <= 25 # 10)%Q → getRetentionScore (Some p) ≤ 100).
Proof.
  intros Hc Hr Hef. unfold getRetentionScore.
  destruct (Z.eqb_spec (totalAttempts p) 0) as [| Hne]; [split; [lia | intros; lia] |].
  pose proof (accuracy_bounds _ _ Hc ltac:(lia)) as Hacc.
  pose proof (repsFactor_bounds _ Hr) as Hreps.
  set (acc := (inject_Z (correctAttempts p) / inject_Z (totalAttempts p))%Q) in *.
  set (rf := Js.min 1 (inject_Z (repetitions p) / 5)) in *.
  assert (Hspan : (0 < (25 # 10) - (13 # 10))%Q) by reflexivity.
  assert (Hlow : (0 <= (easeFactor p - (13 # 10))
                       / ((25 # 10) - (13 # 10)))%Q)
    by (apply Qle_shift_div_l; [exact Hspan | lra]).
  assert (Hhigh : (easeFactor p <= 25 # 10)%Q →
                  ((easeFactor p - (13 # 10)) / ((25 # 10) - (13 # 10))
                   <= 1)%Q)
    by (intros Hcap; apply Qle_shift_div_r; [exact Hspan | lra]).
  set (ef := ((easeFactor p - (13 # 10)) / ((25 # 10) - (13 # 10)))%Q) in *.
  split.
  - apply (Js_round_ge 0). change (inject_Z 0) with 0%Q. lra.
  - intros Hcap. specialize (Hhigh Hcap).
    apply (Js_round_le 100). change (inject_Z 100) with 100%Q. lra.
Qed.

Lemma getRetentionScore_bounds_witness :
  0 ≤ getRetentionScore
        (Some (updateWithSM2 0 emptyStore "A1" "warning" false 5000).1)
  ≤ 100.
Proof.
  destruct (getRetentionScore_bounds
              (updateWithSM2 0 emptyStore "A1" "warning" false 5000).1)
    as [Hlo Hhi]; [vm_compute; split; discriminate | vm_compute; discriminate
                  | vm_compute; discriminate |].
  split; [exact Hlo | apply Hhi; vm_compute; discriminate].
Defined.

(** X8. With the attempts, the ease factor and the repetitions fixed, the
    retention score does not go down when the number of right answers goes
    up. *)
Theorem getRetentionScore_monotone (p1 p2 : SignProgress) :
  totalAttempts p1 = totalAttempts p2 →
  0 ≤ totalAttempts p1 →
  easeFactor p1 = easeFactor p2 →
  repetitions p1 = repetitions p2 →
  correctAttempts p1 ≤ correctAttempts p2 →
  getRetentionScore (Some p1) ≤ getRetentionScore (Some p2).
Proof.
  intros Htotal Hpos Hef Hreps Hc. unfold getRetentionScore.
  rewrite <- Htotal, <- Hef, <- Hreps.
  destruct (Z.eqb_spec (totalAttempts p1) 0) as [| Hne]; [lia |].
  apply Js_round_mono.
  assert (Hacc : (inject_Z (correctAttempts p1) / inject_Z (totalAttempts p1)
                  <= inject_Z (correctAttempts p2)
                     / inject_Z (totalAttempts p1))%Q).
  { apply Qmult_le_compat_r; [by rewrite <- Zle_Qle |].
    apply Qinv_le_0_compat. unfold Qle. cbn. lia. }
  lra.
Qed.

Lemma getRetentionScore_monotone_witness :
  getRetentionScore (Some twoOfFour) ≤ getRetentionScore (Some threeOfFour).
Proof.
  apply getRetentionScore_monotone;
    first [reflexivity | vm_compute; discriminate].
Defined.

(** ** Settings and streaks *)

(** X9. Saving and loading the settings is a round trip.  If the number of
    questions is not zero and the three text settings are not empty, loading
    what [saveSettings] wrote restores all seven saved settings, into
    whatever state it is loaded, and leaves the session fields of that state
    alone; saving again writes the same object.  A saved number of
    questions of zero is not restored: the loading state keeps its own. *)
Theorem settings_round_trip (state state0 : State) :
  let loaded := loadSettings (saveSettings state) state0 in
  (questionsPerQuiz state ≠ 0 → questionType state ≠ "" →
   quizMode state ≠ "" → difficultySetting state ≠ "" →
     questionsPerQuiz loaded = questionsPerQuiz state
     ∧ shuffleOptions loaded = shuffleOptions state
     ∧ showCategoryInfo loaded = showCategoryInfo state
     ∧ questionType loaded = questionType state
     ∧ quizMode loaded = quizMode state
     ∧ difficultySetting loaded = difficultySetting state
     ∧ bestStreak loaded = bestStreak state
     ∧ saveSettings loaded = saveSettings state)
  ∧ (questionsPerQuiz state = 0 →
     questionsPerQuiz loaded = questionsPerQuiz state0)
  ∧ quizSigns loaded = quizSigns state0
  ∧ currentQuestion loaded = currentQuestion state0
  ∧ correctAnswers loaded = correctAnswers state0
  ∧ streak loaded = streak state0
  ∧ wrongAnswers loaded = wrongAnswers state0.
Proof.
  intros loaded. subst loaded. unfold loadSettings, saveSettings.
  cbn -[numOr strOr].
  assert (Hbest : numOr (bestStreak state) 0 = bestStreak state)
    by (unfold numOr; destruct (Z.eqb_spec (bestStreak state) 0); congruence).
  split; [| split; [| repeat split]].
  - intros Hn Htype Hmode Hdiff.
    assert (Hq : numOr (questionsPerQuiz state) (questionsPerQuiz state0)
                 = questionsPerQuiz state)
      by (unfold numOr; destruct (Z.eqb_spec (questionsPerQuiz state) 0);
          congruence).
    assert (Hstr : ∀ s d, s ≠ "" → strOr s d = s)
      by (intros s d Hs; unfold strOr; case_decide; congruence).
    rewrite Hq, Hbest, !Hstr by done. repeat split.
  - intros ->. reflexivity.
Qed.

Lemma settings_round_trip_witness :
  quizMode (loadSettings (saveSettings missedState) initialState) = "missed"
  ∧ questionsPerQuiz (loadSettings (saveSettings missedState) initialState)
    = 10.
Proof.
  destruct (settings_round_trip missedState initialState)
    as [Hback _]. cbv zeta in Hback.
  destruct Hback as (Hn & _ & _ & _ & Hmode & _);
    [vm_compute; discriminate | discriminate | discriminate | discriminate |].
  split; [rewrite Hmode | rewrite Hn]; reflexivity.
Defined.

Lemma updateStreak_cases (isCorrect : bool) (state : State)
    (ls : LocalStorage) :
  let state' := (updateStreak isCorrect state ls).1 in
  let ls' := (updateStreak isCorrect state ls).2 in
  streak state' = (if isCorrect then streak state + 1 else 0)
  ∧ bestStreak state'
    = (if isCorrect then Z.max (bestStreak state) (streak state + 1)
       else bestStreak state)
  ∧ ls' = (if bool_decide (bestStreak state' = bestStreak state) then ls
           else saveSettings state')
  ∧ quizSigns state' = quizSigns state
  ∧ currentQuestion state' = currentQuestion state
  ∧ correctAnswers state' = correctAnswers state
  ∧ wrongAnswers state' = wrongAnswers state.
Proof.
  unfold updateStreak. destruct isCorrect; cbn zeta.
  - destruct (Z.ltb_spec (bestStreak state) (streak state + 1)) as [Hlt | Hge];
      cbn [fst snd].
    + cbn [streak bestStreak withSession quizSigns currentQuestion
             correctAnswers wrongAnswers].
      rewrite bool_decide_eq_false_2 by lia. repeat split; lia.
    + cbn [streak bestStreak withSession quizSigns currentQuestion
             correctAnswers wrongAnswers].
      rewrite bool_decide_eq_true_2 by lia. repeat split; lia.
  - cbn [fst snd streak bestStreak withSession quizSigns currentQuestion
           correctAnswers wrongAnswers].
    rewrite bool_decide_eq_true_2 by done. repeat split.
Qed.

Lemma startQuiz_streaks (now : Z) (random : nat → Q) (db : Store)
    (state : State) :
  bestStreak (startQuiz now random db state).2 = bestStreak state
  ∧ (streak (startQuiz now random db state).2 = streak state
     ∨ streak (startQuiz now random db state).2 = 0).
Proof.
  unfold startQuiz. destruct (selectedCategories state); [by split; [| left] |].
  assert (Hsel : bestStreak (selectQuizSigns now random db
                               (resetQuizState now state)).2 = bestStreak state
                 ∧ streak (selectQuizSigns now random db
                             (resetQuizState now state)).2 = 0)
    by (split; reflexivity).
  destruct Hsel as [Hbest Hstreak].
  destruct (quizSigns _); cbn [snd]; (split; [exact Hbest | by right]).
Qed.

Lemma checkAnswer_streaks (now : Z) (opt : string) (app : App) :
  let app' := (checkAnswer now opt app).2 in
  (app' = app)
  ∨ (∃ isCorrect : bool,
       streak (app_state app')
       = (if isCorrect then streak (app_state app) + 1 else 0)
       ∧ bestStreak (app_state app')
         = (if isCorrect
            then Z.max (bestStreak (app_state app)) (streak (app_state app) + 1)
            else bestStreak (app_state app))
       ∧ app_settings app'
         = (if bool_decide (bestStreak (app_state app')
                            = bestStreak (app_state app))
            then app_settings app else saveSettings (app_state app'))).
Proof.
  unfold checkAnswer. destruct (app_question app) as [question |];
    [| by left].
  right. set (isCorrect := bool_decide (opt = id (q_sign question))).
  exists isCorrect.
  set (state1 := if isCorrect then _ else _).
  assert (Hsame : streak state1 = streak (app_state app)
                  ∧ bestStreak state1 = bestStreak (app_state app))
    by (subst state1; destruct isCorrect; split; reflexivity).
  destruct Hsame as [Hs Hb].
  pose proof (updateStreak_cases isCorrect state1 (app_settings app)) as Hup.
  cbv zeta in Hup. destruct (updateStreak isCorrect state1 (app_settings app))
    as [state2 ls] eqn:Hupd.
  cbn [fst snd app_state app_settings] in *.
  destruct Hup as (Hstreak & Hbest & Hls & _).
  rewrite Hs in Hstreak, Hbest. rewrite Hb in Hbest, Hls. done.
Qed.

Lemma engineStep_streaks (app app' : App) :
  engineStep app app' →
  (app_settings app' = app_settings app
   ∧ bestStreak (app_state app') = bestStreak (app_state app)
   ∧ (streak (app_state app') = streak (app_state app)
      ∨ streak (app_state app') = 0))
  ∨ (∃ isCorrect : bool,
       streak (app_state app')
       = (if isCorrect then streak (app_state app) + 1 else 0)
       ∧ bestStreak (app_state app')
         = (if isCorrect
            then Z.max (bestStreak (app_state app)) (streak (app_state app) + 1)
            else bestStreak (app_state app))
       ∧ app_settings app'
         = (if bool_decide (bestStreak (app_state app')
                            = bestStreak (app_state app))
            then app_settings app else saveSettings (app_state app'))).
Proof.
  intros Hstep. destruct Hstep as [now random app | now app
    | now opt app | app | now app].
  - left. cbn [app_state app_settings].
    destruct (startQuiz_streaks now random (app_db app) (app_state app))
      as [Hbest Hstreak]. done.
  - left. unfold loadCurrentQuestion. destruct (_ !! _); cbn; auto.
  - destruct (checkAnswer_streaks now opt app) as [-> | Hanswer].
    + left. auto.
    + by right.
  - left. cbn. auto.
  - left. cbn. auto.
Qed.

(** X10. The streak stays within the best streak.  Starting from a state
    whose streak lies between 0 and its best streak, every sequence of
    engine operations keeps it there and never lowers the best streak; so
    the best streak that [finishQuiz] writes into the session record, the
    maximum of the two, is simply the best streak of the state. *)
Theorem streak_within_best (app app' : App) :
  rtc engineStep app app' →
  streakBounded (app_state app) →
  streakBounded (app_state app')
  ∧ bestStreak (app_state app) ≤ bestStreak (app_state app')
  ∧ ∀ now, qs_bestStreak <$> last (QUIZ_SESSIONS (app_db (finishQuiz now app')))
           = Some (bestStreak (app_state app')).
Proof.
  intros Hsteps Hstart.
  assert (Hinv : streakBounded (app_state app')
                 ∧ bestStreak (app_state app) ≤ bestStreak (app_state app')).
  { induction Hsteps as [app | app app1 app2 Hstep Hsteps IH];
      [split; [exact Hstart | lia] |].
    unfold streakBounded in *.
    assert (Hone : (0 ≤ streak (app_state app1) ≤ bestStreak (app_state app1))
                   ∧ bestStreak (app_state app) ≤ bestStreak (app_state app1)).
    { destruct (engineStep_streaks _ _ Hstep)
        as [(_ & Hbest & [Hs | Hs]) | (c & Hs & Hbest & _)].
      - lia.
      - lia.
      - destruct c; lia. }
    destruct Hone as [Hbound Hmono].
    destruct (IH Hbound) as [Hbound' Hmono']. split; [exact Hbound' | lia]. }
  destruct Hinv as [Hbound Hmono]. split; [exact Hbound |].
  split; [exact Hmono |]. intros now.
  rewrite finishQuiz_sessions, last_snoc. cbn.
  f_equal. unfold streakBounded in Hbound. lia.
Qed.

Lemma streak_within_best_witness :
  streakBounded (app_state (checkAnswer 0 "A1" freshAppAskingA1).2).
Proof.
  apply (streak_within_best freshAppAskingA1).
  - apply rtc_once, step_checkAnswer.
  - vm_compute. split; discriminate.
Defined.

(** X11. The best streak survives a reload.  If loading the saved settings
    into the initial state gives the best streak of the running state, the
    same holds after every sequence of engine operations: whenever an
    answer moves the best streak, the settings are saved with it. *)
Theorem bestStreak_survives_reload (app app' : App) :
  rtc engineStep app app' → bestStreakSaved app → bestStreakSaved app'.
Proof.
  intros Hsteps. induction Hsteps as [app | app app1 app2 Hstep Hsteps IH];
    [done |].
  intros Hsaved. apply IH. unfold bestStreakSaved in *.
  destruct (engineStep_streaks _ _ Hstep)
    as [(Hls & Hbest & _) | (c & _ & Hbest & Hls)].
  - by rewrite Hls, Hbest.
  - rewrite Hls. case_bool_decide as Hmoved.
    + by rewrite Hmoved.
    + unfold loadSettings, saveSettings, numOr. cbn.
      by destruct (Z.eqb_spec (bestStreak (app_state app1)) 0).
Qed.

Lemma bestStreak_survives_reload_witness :
  bestStreak
    (loadSettings (app_settings (checkAnswer 0 "A1" freshAppAskingA1).2)
       initialState) = 1.
Proof.
  pose proof (bestStreak_survives_reload freshAppAskingA1
                (checkAnswer 0 "A1" freshAppAskingA1).2) as Hreload.
  unfold bestStreakSaved in Hreload. rewrite Hreload.
  - vm_compute. reflexivity.
  - apply rtc_once, step_checkAnswer.
  - reflexivity.
Defined.

(** ** The other selection modes *)

(** A front slice of a shuffled list: its elements come from the list, it
    repeats no id if the list repeats none, and for a count that is not
    negative it has as many elements as asked for, or all of them. *)
Lemma shuffled_slice (random : nat → Q) (l : list QuizSign) (n : Z) :
  let r := JsArray.slice0 (shuffleArray random l) n in
  r ⊆ l
  ∧ (NoDup (id <$> l) → NoDup (id <$> r))
  ∧ (0 ≤ n → Z.of_nat (length r) = Z.min n (Z.of_nat (length l)))
  ∧ (Z.of_nat (length l) ≤ n → r ≡ₚ l).
Proof.
  intros r. subst r.
  pose proof (shuffleArray_Permutation random l) as Hperm.
  assert (Hsub : JsArray.slice0 (shuffleArray random l) n
                 `sublist_of` shuffleArray random l) by apply sublist_take.
  split; [| split; [| split]].
  - intros s Hs. rewrite <- Hperm. by apply (sublist_subseteq _ _ Hsub).
  - intros Hnodup.
    apply (sublist_NoDup _ (id <$> shuffleArray random l));
      [by rewrite Hperm | by apply fmap_sublist].
  - intros Hn. by rewrite slice0_length, (Permutation_length Hperm).
  - intros Hall. rewrite slice0_take by lia.
    rewrite take_ge; [exact Hperm |].
    rewrite (Permutation_length Hperm). lia.
Qed.

Lemma selectQuizSigns_standard_case (now : Z) (random : nat → Q) (db : Store)
    (state : State) :
  quizMode state ∉ ["missed"; "weakest"; "spaced"; "adaptive"] →
  (selectQuizSigns now random db state).1
  = JsArray.slice0 (shuffleArray random (candidatePool state))
      (questionsPerQuiz state).
Proof.
  intros Hmode. unfold selectQuizSigns. cbn [fst].
  repeat case_decide; try reflexivity; exfalso; apply Hmode; set_solver.
Qed.

(** X12. The standard mode, which is also the mode of every unknown mode
    name, draws without repetition: for a pool that lists every sign once
    and a target count that is not negative, the selection has exactly
    [min n (pool size)] signs of the pool and no sign twice; when the target
    reaches the size of the pool, the selection is the whole pool in some
    order. *)
Theorem selectQuizSigns_standard (now : Z) (random : nat → Q) (db : Store)
    (state : State) :
  quizMode state ∉ ["missed"; "weakest"; "spaced"; "adaptive"] →
  (∀ c, 0 <= random c ∧ random c < 1)%Q →
  NoDup (id <$> candidatePool state) →
  0 ≤ questionsPerQuiz state →
  let selected := (selectQuizSigns now random db state).1 in
  selected ⊆ candidatePool state
  ∧ NoDup (id <$> selected)
  ∧ Z.of_nat (length selected)
    = Z.min (questionsPerQuiz state) (Z.of_nat (length (candidatePool state)))
  ∧ (Z.of_nat (length (candidatePool state)) ≤ questionsPerQuiz state →
     selected ≡ₚ candidatePool state).
Proof.
  intros Hmode Hunit Hnodup Hn selected. subst selected.
  rewrite selectQuizSigns_standard_case by done.
  destruct (shuffled_slice random (candidatePool state)
              (questionsPerQuiz state)) as (Hsub & Hnd & Hlen & Hall).
  auto.
Qed.

Lemma alwaysHalf_unit : (∀ c, 0 <= alwaysHalf c ∧ alwaysHalf c < 1)%Q.
Proof. intros c. unfold alwaysHalf. split; [discriminate | reflexivity]. Qed.

Lemma selectQuizSigns_standard_witness :
  (selectQuizSigns 0 alwaysHalf emptyStore standardState).1
  ≡ₚ candidatePool standardState.
Proof.
  destruct (selectQuizSigns_standard 0 alwaysHalf emptyStore standardState)
    as (_ & _ & _ & Hall).
  - apply (bool_decide_unpack _). vm_compute. reflexivity.
  - apply alwaysHalf_unit.
  - apply (bool_decide_unpack _). vm_compute. reflexivity.
  - vm_compute. discriminate.
  - apply Hall. vm_compute. discriminate.
Defined.

(** Filling a primary selection up from the rest of the pool.  The primary
    selection is chosen by a property of the sign id; the rest is shuffled
    and cut to the missing number. *)
Section FillUp.
Context (P : string → Prop) `{∀ i, Decision (P i)}.
Context (random : nat → Q) (candidates : list QuizSign) (n : Z).

Let primary := filter (λ s, P (id s)) candidates.
Let remaining := notSelected primary candidates.
Let filler :=
  JsArray.slice0 (shuffleArray random remaining)
    (n - Z.of_nat (length primary)).

Lemma fill_remaining :
  remaining = filter (λ s, ¬ P (id s)) candidates.
Proof.
  subst remaining primary. unfold notSelected.
  apply filter_ext_in. intros x Hx. split.
  - intros Hnot HP. apply Hnot, list_elem_of_fmap.
    exists x. split; [reflexivity |]. by apply list_elem_of_filter.
  - intros Hnot (y & Hid & Hy)%list_elem_of_fmap.
    apply list_elem_of_filter in Hy as [Hy _]. apply Hnot. by rewrite Hid.
Qed.

Lemma fill_lengths :
  (length primary + length remaining = length candidates)%nat.
Proof.
  rewrite fill_remaining. subst primary.
  rewrite <- length_app. apply Permutation_length, filter_app_complement.
Qed.

Lemma fill_up :
  NoDup (id <$> candidates) →
  primary `prefix_of` primary ++ filler
  ∧ primary ++ filler ⊆ candidates
  ∧ NoDup (id <$> primary ++ filler)
  ∧ (Z.of_nat (length primary) ≤ n →
     Z.of_nat (length (primary ++ filler))
     = Z.min n (Z.of_nat (length candidates))).
Proof.
  intros Hnodup.
  destruct (shuffled_slice random remaining (n - Z.of_nat (length primary)))
    as (Hsub & Hnd & Hlen & _). fold filler in Hsub, Hnd, Hlen.
  assert (Hrem_nodup : NoDup (id <$> remaining)).
  { apply (sublist_NoDup _ (id <$> candidates)); [exact Hnodup |].
    apply fmap_sublist. subst remaining. unfold notSelected.
    apply sublist_filter. }
  split; [by apply prefix_app_r |]. split; [| split].
  - intros s [Hs | Hs]%elem_of_app.
    + by apply list_elem_of_filter in Hs as [_ Hs].
    + apply Hsub, list_elem_of_filter in Hs as [_ Hs]. exact Hs.
  - rewrite fmap_app. apply NoDup_app. split; [| split].
    + apply (sublist_NoDup _ (id <$> candidates)); [exact Hnodup |].
      apply fmap_sublist. subst primary. apply sublist_filter.
    + intros i Hi (s & -> & Hs)%list_elem_of_fmap.
      apply Hsub, list_elem_of_filter in Hs as [Hs _]. by apply Hs.
    + by apply Hnd.
  - intros Hn. pose proof fill_lengths.
    rewrite length_app, Nat2Z.inj_add, Hlen by lia. lia.
Qed.
End FillUp.

Lemma selectWeakest_unfold (random : nat → Q) (weakest : list SignProgress)
    (candidates : list QuizSign) (n : Z) :
  let primary := filter (λ s, id s ∈ signId <$> weakest) candidates in
  selectWeakest random weakest candidates n
  = if Z.of_nat (length primary) <? n then
      primary
      ++ JsArray.slice0 (shuffleArray random (notSelected primary candidates))
           (n - Z.of_nat (length primary))
    else primary.
Proof.
  intros primary. unfold selectWeakest.
  assert (Hprim : filter (λ s, id s ∈ (list_to_set (signId <$> weakest)
                                       : gset string)) candidates = primary)
    by (apply list_filter_iff; intros x; apply elem_of_list_to_set).
  by rewrite Hprim.
Qed.

(** The chosen signs of a pool without repeated ids are no more than the ids
    they were chosen by. *)
Lemma chosen_by_id_length (ids : list string) (candidates : list QuizSign) :
  NoDup (id <$> candidates) →
  (length (filter (λ s, id s ∈ ids) candidates) ≤ length ids)%nat.
Proof.
  intros Hnodup.
  rewrite <- (length_fmap id (filter _ candidates)).
  apply submseteq_length, NoDup_submseteq.
  - apply (sublist_NoDup _ (id <$> candidates)); [exact Hnodup |].
    apply fmap_sublist, sublist_filter.
  - intros i (s & -> & Hs)%list_elem_of_fmap.
    by apply list_elem_of_filter in Hs as [Hs _].
Qed.

(** X13. The weakest mode: the pool's signs among the weakest records come
    first, and whenever they are fewer than the target the selection is
    filled up from the rest of the pool to exactly [min n (pool size)]
    signs, without repeating one.  As the store returns at most [n] weakest
    records, the selection always has [min n (pool size)] signs. *)
Theorem selectWeakest_fills (random : nat → Q) (weakest : list SignProgress)
    (candidates : list QuizSign) (n : Z) :
  (∀ c, 0 <= random c ∧ random c < 1)%Q →
  NoDup (id <$> candidates) →
  let primary := filter (λ s, id s ∈ signId <$> weakest) candidates in
  let selected := selectWeakest random weakest candidates n in
  primary `prefix_of` selected
  ∧ selected ⊆ candidates
  ∧ NoDup (id <$> selected)
  ∧ (Z.of_nat (length primary) < n →
     Z.of_nat (length selected) = Z.min n (Z.of_nat (length candidates)))
  ∧ (n ≤ Z.of_nat (length primary) → selected = primary)
  ∧ (Z.of_nat (length weakest) ≤ n →
     Z.of_nat (length selected) = Z.min n (Z.of_nat (length candidates))).
Proof.
  intros Hunit Hnodup primary selected. subst selected.
  rewrite selectWeakest_unfold. fold primary.
  destruct (fill_up (λ i, i ∈ signId <$> weakest) random candidates n Hnodup)
    as (Hpre & Hsub & Hnd & Hlen). fold primary in Hpre, Hsub, Hnd, Hlen.
  assert (Hprim_sub : primary ⊆ candidates) by apply list_subseteq_filter.
  assert (Hprim_nd : NoDup (id <$> primary)).
  { apply (sublist_NoDup _ (id <$> candidates)); [exact Hnodup |].
    apply fmap_sublist, sublist_filter. }
  pose proof (chosen_by_id_length (signId <$> weakest) candidates Hnodup)
    as Hfew. fold primary in Hfew. rewrite length_fmap in Hfew.
  pose proof (length_filter (λ s, id s ∈ signId <$> weakest) candidates)
    as Hpool. fold primary in Hpool.
  destruct (Z.ltb_spec (Z.of_nat (length primary)) n) as [Hshort | Hfull].
  - repeat split; try done.
    + intros _. apply Hlen. lia.
    + intros; lia.
    + intros _. apply Hlen. lia.
  - repeat split; try done.
    + intros; lia.
    + intros Hlimit. lia.
Qed.

Lemma selectWeakest_fills_witness :
  Z.of_nat
    (length (selectWeakest alwaysHalf [twoOfFour]
               (sampleSign <$> ["A1"; "A2"; "A3"; "A4"]) 3)) = 3.
Proof.
  destruct (selectWeakest_fills alwaysHalf [twoOfFour]
              (sampleSign <$> ["A1"; "A2"; "A3"; "A4"]) 3)
    as (_ & _ & _ & _ & _ & Hlen).
  - apply alwaysHalf_unit.
  - apply (bool_decide_unpack _). vm_compute. reflexivity.
  - rewrite Hlen; [reflexivity | vm_compute; discriminate].
Defined.

Lemma selectSpaced_unfold (random : nat → Q)
    (dueForReview allProgress : list SignProgress)
    (candidates : list QuizSign) (n : Z) :
  let primary := filter (λ s, id s ∈ signId <$> dueForReview) candidates in
  let newSigns := filter (λ s, id s ∉ signId <$> allProgress) candidates in
  selectSpaced random dueForReview allProgress candidates n
  = if Z.of_nat (length primary) <? n then
      primary
      ++ JsArray.slice0 (shuffleArray random newSigns)
           (n - Z.of_nat (length primary))
    else primary.
Proof.
  intros primary newSigns. unfold selectSpaced.
  assert (Hprim : filter (λ s, id s ∈ (list_to_set (signId <$> dueForReview)
                                       : gset string)) candidates = primary)
    by (apply list_filter_iff; intros x; apply elem_of_list_to_set).
  assert (Hnew : filter (λ s, id s ∉ (list_to_set (signId <$> allProgress)
                                      : gset string)) candidates = newSigns)
    by (apply list_filter_iff; intros x;
        by rewrite elem_of_list_to_set).
  by rewrite Hprim, Hnew.
Qed.

(** X14. The spaced mode: the pool's signs that are due come first, and
    when they are fewer than the target only signs without any progress
    record are added, in random order, never a sign twice.  The selection
    then has [min n (due + new)] signs, which can be fewer than the target
    although the pool is larger; when every sign of the pool has a record
    and none is due, the selection is empty. *)
Theorem selectSpaced_adds_new_signs_only (random : nat → Q)
    (dueForReview allProgress : list SignProgress)
    (candidates : list QuizSign) (n : Z) :
  (∀ c, 0 <= random c ∧ random c < 1)%Q →
  NoDup (id <$> candidates) →
  (∀ d, d ∈ dueForReview → signId d ∈ signId <$> allProgress) →
  let primary := filter (λ s, id s ∈ signId <$> dueForReview) candidates in
  let newSigns := filter (λ s, id s ∉ signId <$> allProgress) candidates in
  let selected := selectSpaced random dueForReview allProgress candidates n in
  primary `prefix_of` selected
  ∧ (∀ s, s ∈ selected → s ∈ primary ∨ s ∈ newSigns)
  ∧ NoDup (id <$> selected)
  ∧ (Z.of_nat (length primary) < n →
     Z.of_nat (length selected)
     = Z.min n (Z.of_nat (length primary + length newSigns)))
  ∧ (primary = [] → newSigns = [] → selected = []).
Proof.
  intros Hunit Hnodup Hdue primary newSigns selected. subst selected.
  rewrite selectSpaced_unfold. fold primary newSigns.
  destruct (shuffled_slice random newSigns (n - Z.of_nat (length primary)))
    as (Hsub & Hnd & Hlen & _).
  set (filler := JsArray.slice0 _ _) in *.
  assert (Hprim_nd : NoDup (id <$> primary)).
  { apply (sublist_NoDup _ (id <$> candidates)); [exact Hnodup |].
    apply fmap_sublist, sublist_filter. }
  assert (Hnew_nd : NoDup (id <$> newSigns)).
  { apply (sublist_NoDup _ (id <$> candidates)); [exact Hnodup |].
    apply fmap_sublist, sublist_filter. }
  destruct (Z.ltb_spec (Z.of_nat (length primary)) n) as [Hshort | Hfull].
  - split; [by apply prefix_app_r |]. split; [| split; [| split]].
    + intros s [Hs | Hs]%elem_of_app; [by left | right; by apply Hsub].
    + rewrite fmap_app. apply NoDup_app. split; [exact Hprim_nd |].
      split; [| by apply Hnd].
      intros i (s & -> & Hs)%list_elem_of_fmap (s' & Hid & Hs')%list_elem_of_fmap.
      apply list_elem_of_filter in Hs as [Hs _].
      apply Hsub, list_elem_of_filter in Hs' as [Hs' _].
      apply Hs'. rewrite <- Hid.
      apply list_elem_of_fmap in Hs as (d & -> & Hd). by apply Hdue.
    + intros _. rewrite length_app, !Nat2Z.inj_add, Hlen by lia. lia.
    + intros Hp Hn. subst filler. rewrite Hp, Hn. cbn [app].
      unfold JsArray.slice0, shuffleArray. cbn [length Nat.sub shuffleLoop].
      apply take_nil.
  - split; [done |]. split; [| split; [| split]].
    + intros s Hs. by left.
    + exact Hprim_nd.
    + intros; lia.
    + intros Hp _. exact Hp.
Qed.

Lemma selectSpaced_adds_new_signs_only_witness :
  selectSpaced alwaysHalf [] [twoOfFour] (sampleSign <$> ["A1"]) 3 = [].
Proof.
  destruct (selectSpaced_adds_new_signs_only alwaysHalf [] [twoOfFour]
              (sampleSign <$> ["A1"]) 3) as (_ & _ & _ & _ & Hempty).
  - apply alwaysHalf_unit.
  - apply (bool_decide_unpack _). vm_compute. reflexivity.
  - intros d Hd. by apply elem_of_nil in Hd.
  - apply Hempty; vm_compute; reflexivity.
Defined.

(** ** Every selection comes from the pool *)

Lemma selectMissed_subseteq (random : nat → Q)
    (lastSession : option QuizSession) (candidates : list QuizSign) (n : Z) :
  selectMissed random lastSession candidates n ⊆ candidates.
Proof.
  rewrite selectMissed_unfold.
  set (primary := missedEligible lastSession candidates).
  assert (Hprim : primary ⊆ candidates) by apply list_subseteq_filter.
  destruct (length primary <? 5)%nat; [| exact Hprim].
  intros s [Hs | Hs]%elem_of_app; [by apply Hprim |].
  apply (proj1 (shuffled_slice random _ _)) in Hs.
  by apply list_elem_of_filter in Hs as [_ Hs].
Qed.

Lemma selectWeakest_subseteq (random : nat → Q) (weakest : list SignProgress)
    (candidates : list QuizSign) (n : Z) :
  selectWeakest random weakest candidates n ⊆ candidates.
Proof.
  rewrite selectWeakest_unfold.
  set (primary := filter _ candidates).
  assert (Hprim : primary ⊆ candidates) by apply list_subseteq_filter.
  destruct (_ <? n); [| exact Hprim].
  intros s [Hs | Hs]%elem_of_app; [by apply Hprim |].
  apply (proj1 (shuffled_slice random _ _)) in Hs.
  by apply list_elem_of_filter in Hs as [_ Hs].
Qed.

Lemma selectSpaced_subseteq (random : nat → Q)
    (dueForReview allProgress : list SignProgress)
    (candidates : list QuizSign) (n : Z) :
  selectSpaced random dueForReview allProgress candidates n ⊆ candidates.
Proof.
  rewrite selectSpaced_unfold.
  set (primary := filter _ candidates).
  assert (Hprim : primary ⊆ candidates) by apply list_subseteq_filter.
  destruct (_ <? n); [| exact Hprim].
  intros s [Hs | Hs]%elem_of_app; [by apply Hprim |].
  apply (proj1 (shuffled_slice random _ _)) in Hs.
  by apply list_elem_of_filter in Hs as [_ Hs].
Qed.

Lemma selectAdaptive_subseteq (now : Z) (allProgress : list SignProgress)
    (candidates : list QuizSign) (n : Z) :
  selectAdaptive now allProgress candidates n ⊆ candidates.
Proof.
  rewrite selectAdaptive_sorted_front. intros s Hs.
  apply subseteq_take in Hs. by rewrite sort_Permutation in Hs.
Qed.

Lemma selectQuizSigns_subseteq (now : Z) (random : nat → Q) (db : Store)
    (state : State) :
  (selectQuizSigns now random db state).1 ⊆ candidatePool state.
Proof.
  unfold selectQuizSigns. cbn [fst]. repeat case_decide.
  - apply selectMissed_subseteq.
  - apply selectWeakest_subseteq.
  - apply selectSpaced_subseteq.
  - apply selectAdaptive_subseteq.
  - apply (shuffled_slice random).
Qed.

Lemma filterByDifficulty_elem (signs : list QuizSign) (difficulty : string)
    (s : QuizSign) :
  s ∈ filterByDifficulty signs difficulty
  ↔ s ∈ signs
    ∧ (difficulty = "adaptive"
       ∨ signDifficulty s ∈ allowedDifficulties difficulty).
Proof.
  unfold filterByDifficulty. case_decide as Hadaptive.
  - split; [intros Hs; split; [done | by left] | by intros [Hs _]].
  - rewrite list_elem_of_filter. split.
    + intros [Hallowed Hs]. split; [done | by right].
    + intros [Hs [Had | Hallowed]]; [done |]. by split.
Qed.

Lemma categoryCandidates_elem (state : State) (s : QuizSign) :
  s ∈ categoryCandidates state
  ↔ ∃ catKey category raw,
      catKey ∈ selectedCategories state
      ∧ signData state !! catKey = Some category
      ∧ raw ∈ cat_signs category
      ∧ s = withCategory catKey category raw.
Proof.
  unfold categoryCandidates. rewrite list_elem_of_In, in_flat_map.
  setoid_rewrite <- list_elem_of_In. split.
  - intros (catKey & Hkey & Hs).
    destruct (signData state !! catKey) as [category |] eqn:Hcat;
      [| by apply elem_of_nil in Hs].
    apply list_elem_of_fmap in Hs as (raw & -> & Hraw).
    by exists catKey, category, raw.
  - intros (catKey & category & raw & Hkey & Hcat & Hraw & ->).
    exists catKey. split; [done |]. rewrite Hcat.
    apply list_elem_of_fmap. by exists raw.
Qed.

(** X15. Whatever the mode, every sign that [selectQuizSigns] returns is a
    sign of the candidate pool: it is a sign of one of the selected
    categories, spread with the data of that category, and unless the
    difficulty setting is [adaptive] its difficulty (2 when it has none)
    is one that the setting allows. *)
Theorem selectQuizSigns_from_pool (now : Z) (random : nat → Q) (db : Store)
    (state : State) (s : QuizSign) :
  s ∈ (selectQuizSigns now random db state).1 →
  (∃ catKey category raw,
     catKey ∈ selectedCategories state
     ∧ signData state !! catKey = Some category
     ∧ raw ∈ cat_signs category
     ∧ s = withCategory catKey category raw)
  ∧ (difficultySetting state = "adaptive"
     ∨ signDifficulty s ∈ allowedDifficulties (difficultySetting state)).
Proof.
  intros Hs. apply selectQuizSigns_subseteq in Hs.
  unfold candidatePool in Hs.
  apply filterByDifficulty_elem in Hs as [Hs Hdiff].
  split; [by apply categoryCandidates_elem | exact Hdiff].
Qed.

Lemma selectQuizSigns_from_pool_witness :
  Forall (λ s, qcategory s = "x")
    (selectQuizSigns 0 alwaysHalf emptyStore standardState).1.
Proof.
  apply Forall_forall. intros s Hs.
  destruct (selectQuizSigns_from_pool 0 alwaysHalf emptyStore standardState
              s Hs) as [(catKey & category & raw & Hkey & _ & _ & ->) _].
  cbn in Hkey. apply list_elem_of_singleton in Hkey. by subst catKey.
Defined.

(** X16. A quiz cannot start on an empty pool.  In every mode an empty
    candidate pool gives an empty selection, so [startQuiz] returns
    [false].  This is what the [hard] setting does to a catalogue whose
    signs carry no difficulty: each counts as difficulty 2, which [hard]
    does not allow, so the pool is empty. *)
Theorem startQuiz_needs_a_pool (now : Z) (random : nat → Q) (db : Store)
    (state : State) :
  (candidatePool state = [] →
   (startQuiz now random db state).1 = false)
  ∧ (difficultySetting state = "hard" →
     (∀ catKey category raw,
        catKey ∈ selectedCategories state →
        signData state !! catKey = Some category →
        raw ∈ cat_signs category → sign_difficulty raw = None) →
     candidatePool state = []
     ∧ (startQuiz now random db state).1 = false).
Proof.
  assert (Hempty : candidatePool state = [] →
                   (startQuiz now random db state).1 = false).
  { intros Hpool.
    change (candidatePool state)
      with (candidatePool (resetQuizState now state)) in Hpool.
    unfold startQuiz.
    destruct (selectedCategories state); [reflexivity |].
    pose proof (selectQuizSigns_subseteq now random db
                  (resetQuizState now state)) as Hsub.
    rewrite Hpool in Hsub.
    destruct (selectQuizSigns_stored now random db (resetQuizState now state))
      as [Hstored _]. rewrite Hstored.
    destruct (selectQuizSigns now random db (resetQuizState now state)).1
      as [| first rest]; [reflexivity |].
    exfalso. apply (not_elem_of_nil first), Hsub. by left. }
  split; [exact Hempty |].
  intros Hhard Hnone.
  assert (Hpool : candidatePool state = []).
  { destruct (candidatePool state) as [| s rest] eqn:Hcp; [reflexivity |].
    exfalso. assert (Hs : s ∈ candidatePool state) by (rewrite Hcp; by left).
    unfold candidatePool in Hs.
    apply filterByDifficulty_elem in Hs as [Hs Hdiff].
    apply categoryCandidates_elem in Hs
      as (catKey & category & raw & Hkey & Hcat & Hraw & ->).
    rewrite Hhard in Hdiff. destruct Hdiff as [Hd | Hd]; [discriminate |].
    unfold signDifficulty, withCategory in Hd. cbn [difficulty] in Hd.
    rewrite (Hnone catKey category raw Hkey Hcat Hraw) in Hd.
    revert Hd. apply (bool_decide_unpack _). vm_compute. reflexivity. }
  split; [exact Hpool |]. apply Hempty. exact Hpool.
Qed.

Lemma startQuiz_needs_a_pool_witness :
  (startQuiz 0 alwaysHalf emptyStore hardState).1 = false.
Proof.
  destruct (startQuiz_needs_a_pool 0 alwaysHalf emptyStore hardState)
    as [_ Hhard].
  apply Hhard; [reflexivity |].
  intros catKey category raw Hkey Hcat Hraw.
  cbn in Hkey. apply list_elem_of_singleton in Hkey. subst catKey.
  cbn in Hcat. rewrite lookup_singleton_eq in Hcat. injection Hcat as <-.
  cbn in Hraw.
  repeat (apply elem_of_cons in Hraw as [-> | Hraw]; [reflexivity |]).
  by apply elem_of_nil in Hraw.
Defined.

(** ** The difficulty filter and the shuffle *)

(** X17. The difficulty filter keeps signs in their order and does nothing
    when applied twice.  A sign without a difficulty counts as difficulty 2:
    every setting keeps it except [hard], which drops it. *)
Theorem filterByDifficulty_props (signs : list QuizSign) (setting : string) :
  filterByDifficulty signs setting `sublist_of` signs
  ∧ filterByDifficulty (filterByDifficulty signs setting) setting
    = filterByDifficulty signs setting
  ∧ ∀ s, s ∈ signs → difficulty s = None →
         (s ∈ filterByDifficulty signs setting ↔ setting ≠ "hard").
Proof.
  split; [| split].
  - unfold filterByDifficulty. case_decide; [reflexivity | apply sublist_filter].
  - unfold filterByDifficulty. case_decide; [reflexivity |].
    rewrite list_filter_filter. apply list_filter_iff. tauto.
  - intros s Hs Hnone. rewrite filterByDifficulty_elem.
    unfold signDifficulty. rewrite Hnone. unfold allowedDifficulties.
    split.
    + intros [_ [-> | Hallowed]]; [discriminate |].
      intros ->. revert Hallowed. apply (bool_decide_unpack _).
      vm_compute. reflexivity.
    + intros Hhard. split; [done |].
      destruct (decide (setting = "adaptive")) as [| Hadaptive]; [by left |].
      right. repeat case_decide; try done; set_solver.
Qed.

Lemma filterByDifficulty_props_witness :
  sampleSign "A1" ∈ filterByDifficulty [sampleSign "A1"] "medium".
Proof.
  destruct (filterByDifficulty_props [sampleSign "A1"] "medium")
    as (_ & _ & Hkeep).
  apply Hkeep; [by left | reflexivity | discriminate].
Defined.

Lemma shuffleLoop_draws_in_range {A : Type} (random : nat → Q) (k i : nat)
    (arr : list A) :
  (∀ c, 0 <= random c ∧ random c < 1)%Q →
  (i < length arr)%nat →
  ∀ step, (step < i)%nat →
    (randomIndex (random (k + step)) (i - step) ≤ i - step)%nat
    ∧ (i - step < length arr)%nat.
Proof.
  intros Hunit Hi step Hstep. destruct (Hunit (k + step)%nat) as [Hlo Hhi].
  split; [by apply randomIndex_le | lia].
Qed.

(** X18. [shuffleArray] returns a rearrangement of its argument.  With
    draws from the unit interval every exchange of the loop is between two
    positions of the array, and the result has the same length and the same
    elements as the argument, each as often as there; a list without
    repetitions stays without. *)
Theorem shuffleArray_rearranges {A : Type} (random : nat → Q)
    (array : list A) :
  (∀ c, 0 <= random c ∧ random c < 1)%Q →
  (∀ step, (step < length array - 1)%nat →
     (randomIndex (random step) (length array - 1 - step)
      ≤ length array - 1 - step < length array)%nat)
  ∧ shuffleArray random array ≡ₚ array
  ∧ length (shuffleArray random array) = length array
  ∧ (∀ x, x ∈ shuffleArray random array ↔ x ∈ array)
  ∧ (NoDup array → NoDup (shuffleArray random array)).
Proof.
  intros Hunit.
  pose proof (shuffleArray_Permutation random array) as Hperm.
  split; [| split; [exact Hperm | split; [| split]]].
  - intros step Hstep.
    destruct (shuffleLoop_draws_in_range random 0 (length array - 1) array
                Hunit ltac:(lia) step Hstep) as [Hdraw Hpos].
    cbn [Nat.add] in Hdraw. lia.
  - by apply Permutation_length.
  - intros x. by rewrite Hperm.
  - intros Hnodup. by rewrite Hperm.
Qed.

Lemma shuffleArray_rearranges_witness :
  shuffleArray alwaysHalf [1; 2; 3; 4] ≡ₚ [1; 2; 3; 4].
Proof.
  destruct (shuffleArray_rearranges alwaysHalf [1; 2; 3; 4] alwaysHalf_unit)
    as (_ & Hperm & _).
  exact Hperm.
Defined.

(** ** Generated questions *)

Lemma shuffleFrom_Permutation {A : Type} (random : nat → Q) (k : nat)
    (array : list A) :
  shuffleFrom random k array ≡ₚ array.
Proof. apply shuffleLoop_Permutation. Qed.

Lemma find_head_filter {A : Type} (p : A → bool) (l : list A) :
  List.find p l = head (filter (λ x, Is_true (p x)) l).
Proof.
  induction l as [| x l IH]; [reflexivity |].
  cbn [List.find]. rewrite filter_cons.
  case_decide as Hd; destruct (p x); cbn in Hd; done.
Qed.

(** The options are the sign itself and up to [count - 1] other signs, in
    some order. *)
Lemma generateOptions_Permutation (random : nat → Q) (k : nat)
    (shuffle : bool) (correctSign : QuizSign) (allSigns : list QuizSign)
    (count : Z) :
  1 ≤ count →
  ∃ wrong,
    generateOptions random k shuffle correctSign allSigns count
    ≡ₚ wrong ++ [correctSign]
    ∧ wrong ⊆ filter (λ s, id s ≠ id correctSign) allSigns
    ∧ Z.of_nat (length wrong)
      = Z.min (count - 1)
          (Z.of_nat (length (filter (λ s, id s ≠ id correctSign) allSigns))).
Proof.
  intros Hcount. unfold generateOptions.
  set (filtered := filter _ allSigns).
  set (wrong := JsArray.slice0 (shuffleFrom random k filtered) (count - 1)).
  exists wrong. split; [| split].
  - destruct shuffle; [apply shuffleFrom_Permutation | reflexivity].
  - intros s Hs. subst wrong. apply subseteq_take in Hs.
    by rewrite shuffleFrom_Permutation in Hs.
  - subst wrong. rewrite slice0_length by lia.
    by rewrite (Permutation_length (shuffleFrom_Permutation random k filtered)).
Qed.

Section OptionRows.
Context (sign : QuizSign) (row : QuizSign → AnswerOption).
Hypothesis row_id : ∀ s, opt_id (row s) = id s.
Hypothesis row_correct :
  ∀ s, opt_isCorrect (row s) = bool_decide (id s = id sign).

Lemma rows_one_correct (options wrong : list QuizSign) :
  options ≡ₚ wrong ++ [sign] →
  (∀ s, s ∈ wrong → id s ≠ id sign) →
  filter (λ o, Is_true (opt_isCorrect o)) (row <$> options) = [row sign]
  ∧ List.find opt_isCorrect (row <$> options) = Some (row sign).
Proof.
  intros Hperm Hwrong.
  assert (Hfilter : filter (λ o, Is_true (opt_isCorrect o)) (row <$> options)
                    = [row sign]).
  { apply Permutation_singleton_r. rewrite Hperm, fmap_app, filter_app.
    assert (Hnone : filter (λ o, Is_true (opt_isCorrect o)) (row <$> wrong)
                    = []).
    { clear Hperm. induction wrong as [| s wrong' IH]; [reflexivity |].
      rewrite fmap_cons, filter_cons, decide_False.
      - apply IH. intros s' Hs'. apply Hwrong. by right.
      - rewrite row_correct, bool_decide_eq_false_2; [tauto |].
        apply Hwrong. by left. }
    rewrite Hnone. cbn [app fmap list_fmap].
    rewrite filter_cons, decide_True; [reflexivity |].
    by rewrite row_correct, bool_decide_eq_true_2. }
  split; [exact Hfilter |]. by rewrite find_head_filter, Hfilter.
Qed.
End OptionRows.

(** X19. Every generated question has exactly one option marked correct,
    and it is the option of the sign asked about: the option that
    [checkAnswer] looks up carries the id and the name of that sign.  A
    question has the sign and up to three other signs as its options, four
    options whenever three other signs exist; every other option is a sign
    of the list with a different id. *)
Theorem generateQuestion_one_correct (now : Z) (random : nat → Q)
    (state : State) (sign : QuizSign) (allSigns : list QuizSign) :
  let q := generateQuestion now random state sign allSigns in
  let others := filter (λ s, id s ≠ id sign) allSigns in
  gq_sign q = sign
  ∧ gq_startTime q = now
  ∧ (∃ o, correctOption q = Some o
          ∧ filter (λ o, Is_true (opt_isCorrect o)) (gq_options q) = [o]
          ∧ opt_id o = id sign ∧ opt_name o = name sign)
  ∧ Z.of_nat (length (gq_options q)) = Z.min 3 (Z.of_nat (length others)) + 1
  ∧ ∀ o, o ∈ gq_options q → opt_isCorrect o = false →
         ∃ s, s ∈ allSigns ∧ id s ≠ id sign ∧ opt_id o = id s.
Proof.
  intros q others.
  assert (Hshape : ∃ k row,
    gq_options q
    = row <$> generateOptions random k (shuffleOptions state) sign allSigns 4
    ∧ (∀ s, opt_id (row s) = id s)
    ∧ (∀ s, opt_name (row s) = name s)
    ∧ (∀ s, opt_isCorrect (row s) = bool_decide (id s = id sign))
    ∧ gq_sign q = sign ∧ gq_startTime q = now).
  { subst q. unfold generateQuestion.
    repeat case_decide; try destruct (Qlt_le_dec _ _);
      eexists _, _; repeat split. }
  destruct Hshape as (k & row & Hopts & Hid & Hname & Hcorrect & Hsign & Htime).
  destruct (generateOptions_Permutation random k (shuffleOptions state) sign
              allSigns 4 ltac:(lia)) as (wrong & Hperm & Hwrong & Hlen).
  fold others in Hwrong, Hlen.
  assert (Hdiff : ∀ s, s ∈ wrong → id s ≠ id sign).
  { intros s Hs. by apply Hwrong, list_elem_of_filter in Hs as [Hs _]. }
  destruct (rows_one_correct sign row Hcorrect _ _ Hperm Hdiff)
    as [Hfilter Hfind].
  split; [exact Hsign |]. split; [exact Htime |]. split; [| split].
  - exists (row sign). unfold correctOption. rewrite Hopts.
    repeat split; [exact Hfind | exact Hfilter | apply Hid | apply Hname].
  - rewrite Hopts, length_fmap, (Permutation_length Hperm), length_app.
    cbn [length]. lia.
  - intros o Ho Hfalse. rewrite Hopts in Ho.
    apply list_elem_of_fmap in Ho as (s & -> & Hs).
    rewrite Hperm in Hs. apply elem_of_app in Hs as [Hs | Hs].
    + exists s. apply Hwrong, list_elem_of_filter in Hs as [Hne Hs].
      repeat split; [exact Hs | exact Hne | apply Hid].
    + apply list_elem_of_singleton in Hs. subst s.
      rewrite Hcorrect, bool_decide_eq_true_2 in Hfalse; done.
Qed.

Lemma generateQuestion_one_correct_witness :
  Z.of_nat
    (length (gq_options (generateQuestion 0 alwaysHalf demoState
                           (sampleSign "A1")
                           (sampleSign <$> ["A1"; "A2"; "A3"])))) = 3.
Proof.
  destruct (generateQuestion_one_correct 0 alwaysHalf demoState
              (sampleSign "A1") (sampleSign <$> ["A1"; "A2"; "A3"]))
    as (_ & _ & _ & Hlen & _).
  rewrite Hlen. vm_compute. reflexivity.
Defined.



(** ** Counting a session *)

Lemma playQuestion_fields (now rt : Z) (opt : string) (app : App)
    (sign : QuizSign) :
  quizSigns (app_state app) !! currentQuestion (app_state app) = Some sign →
  let state := app_state app in
  let state' := app_state (playQuestion now rt opt app) in
  let right := bool_decide (opt = id sign) in
  quizSigns state' = quizSigns state
  ∧ currentQuestion state' = S (currentQuestion state)
  ∧ correctAnswers state' = correctAnswers state + (if right then 1 else 0)
  ∧ wrongAnswers state'
    = wrongAnswers state ++ (if right then [] else [sign])
  ∧ app_db (playQuestion now rt opt app)
    = (updateWithSM2 (now + rt) (app_db app) (id sign) (qcategory sign)
         right (inject_Z rt)).2.
Proof.
  intros Hsign state state' right. subst state' state.
  unfold playQuestion, loadCurrentQuestion. rewrite Hsign.
  unfold checkAnswer. cbn [app_question app_state app_db app_settings q_sign
                           q_startTime].
  fold right.
  replace (now + rt - now) with rt by lia.
  set (state1 := if right then _ else _).
  pose proof (updateStreak_cases right state1 (app_settings app)) as Hup.
  cbv zeta in Hup.
  destruct (updateStreak right state1 (app_settings app)) as [state2 ls].
  cbn [fst snd] in Hup.
  destruct Hup as (_ & _ & _ & Hsigns & Hcur & Hcorrect & Hwrong).
  cbn [snd app_state app_db nextQuestion quizSigns currentQuestion
         correctAnswers wrongAnswers withSession].
  rewrite Hsigns, Hcur, Hcorrect, Hwrong.
  subst state1. destruct right; cbn; rewrite ?app_nil_r; repeat split; lia.
Qed.

(** X21. A session counts every question once.  After a successful
    [startQuiz] nothing is counted yet; answering the current question and
    moving on adds one to the right answers or appends the sign to the wrong
    ones, so right and wrong answers always add up to the number of
    questions asked; when the last question has been answered, the session
    record has as many right and wrong answers as questions and a
    percentage between 0 and 100. *)
Theorem session_counts_every_question :
  (∀ now random db state,
     (startQuiz now random db state).1 = true →
     sessionCounted (startQuiz now random db state).2
     ∧ currentQuestion (startQuiz now random db state).2 = 0%nat)
  ∧ (∀ now rt opt app,
       sessionCounted (app_state app) →
       (currentQuestion (app_state app)
        < length (quizSigns (app_state app)))%nat →
       sessionCounted (app_state (playQuestion now rt opt app))
       ∧ currentQuestion (app_state (playQuestion now rt opt app))
         = S (currentQuestion (app_state app)))
  ∧ (∀ now state,
       sessionCounted state →
       currentQuestion state = length (quizSigns state) →
       (0 < length (quizSigns state))%nat →
       qs_correctAnswers (sessionRecord now state)
       + Z.of_nat (length (qs_wrongAnswers (sessionRecord now state)))
       = qs_totalQuestions (sessionRecord now state)
       ∧ 0 ≤ qs_percentage (sessionRecord now state) ≤ 100).
Proof.
  split; [| split].
  - intros now random db state Hstarted. unfold startQuiz in *.
    destruct (selectedCategories state); [discriminate |].
    destruct (quizSigns _) eqn:Hsigns; [discriminate |]. cbn [snd].
    unfold sessionCounted. cbn. repeat split; try lia. set_solver.
  - intros now rt opt app (Hsum & Hpos & Hcur & Hwrong) Hmore.
    destruct (lookup_lt_is_Some_2 _ _ Hmore) as [sign Hsign].
    destruct (playQuestion_fields now rt opt app sign Hsign)
      as (Hsigns & Hnext & Hcorrect & Hwrongs & _).
    cbv zeta in *. unfold sessionCounted.
    rewrite Hsigns, Hnext, Hcorrect, Hwrongs, length_app.
    split; [| reflexivity].
    assert (Hin : sign ∈ quizSigns (app_state app))
      by (apply list_elem_of_lookup; eauto).
    destruct (bool_decide (opt = id sign)); cbn [length];
      rewrite ?app_nil_r; repeat split; try lia; try done.
    intros s [Hs | Hs]%elem_of_app; [by apply Hwrong |].
    apply list_elem_of_singleton in Hs. by subst s.
  - intros now state (Hsum & Hpos & Hcur & Hwrong) Hdone Hsome.
    unfold sessionRecord.
    cbn [qs_correctAnswers qs_wrongAnswers qs_totalQuestions qs_percentage].
    rewrite length_fmap. split; [lia |].
    assert (Hc : 0 ≤ correctAnswers state
                 ≤ Z.of_nat (length (quizSigns state))) by lia.
    pose proof (accuracy_bounds _ _ Hc ltac:(lia)) as Hacc.
    set (acc := (inject_Z (correctAnswers state)
                 / inject_Z (Z.of_nat (length (quizSigns state))))%Q) in *.
    split.
    + apply (Js_round_ge 0). change (inject_Z 0) with 0%Q. lra.
    + apply (Js_round_le 100). change (inject_Z 100) with 100%Q. lra.
Qed.

Lemma session_counts_every_question_witness :
  sessionCounted (startQuiz 0 alwaysHalf emptyStore standardState).2.
Proof.
  destruct session_counts_every_question as [Hstart _].
  apply Hstart. vm_compute. reflexivity.
Defined.

(** ** The category totals of a finished quiz *)

Section CategoryTotals.
Implicit Types (acc : list (string * Z)) (signs : list QuizSign).

Let bump (c : string) acc : list (string * Z) :=
  (λ kv : string * Z, if decide (kv.1 = c) then (kv.1, kv.2 + 1) else kv)
  <$> acc.

Lemma bump_keys c acc : (bump c acc).*1 = acc.*1.
Proof.
  subst bump. cbn beta. rewrite <- list_fmap_compose.
  apply list_fmap_ext. intros i [k v] _. cbn. by case_decide.
Qed.

Lemma bump_elem c acc cat n :
  (cat, n) ∈ bump c acc
  ↔ (cat ≠ c ∧ (cat, n) ∈ acc)
    ∨ (cat = c ∧ ∃ n0, (c, n0) ∈ acc ∧ n = n0 + 1).
Proof.
  subst bump. cbn beta. rewrite list_elem_of_fmap. split.
  - intros ([k v] & Heq & Hkv). cbn in Heq. case_decide as Hk.
    + injection Heq as -> ->. subst k. right. split; [done |]. by exists v.
    + injection Heq as -> ->. left. done.
  - intros [[Hne Hin] | [-> (n0 & Hin & ->)]].
    + exists (cat, n). cbn. by rewrite decide_False.
    + exists (c, n0). cbn. by rewrite decide_True.
Qed.

Lemma countInCategory_cons cat s signs :
  countInCategory cat (s :: signs)
  = countInCategory cat signs + (if decide (qcategory s = cat) then 1 else 0).
Proof.
  unfold countInCategory. rewrite filter_cons.
  case_decide; cbn [length]; lia.
Qed.

Lemma categoryTotals_spec signs acc :
  NoDup acc.*1 →
  NoDup (categoryTotals signs acc).*1
  ∧ ∀ cat n,
      (cat, n) ∈ categoryTotals signs acc
      ↔ (∃ n0, (cat, n0) ∈ acc ∧ n = n0 + countInCategory cat signs)
        ∨ ((cat ∉ acc.*1) ∧ 0 < countInCategory cat signs
           ∧ n = countInCategory cat signs).
Proof.
  revert acc. induction signs as [| s signs IH]; intros acc Hnodup.
  - cbn [categoryTotals]. split; [exact Hnodup |]. intros cat n.
    unfold countInCategory. cbn. split.
    + intros Hin. left. exists n. split; [done | lia].
    + intros [(n0 & Hin & ->) | (_ & Hpos & _)]; [| lia].
      by rewrite Z.add_0_r.
  - cbn [categoryTotals]. set (c := qcategory s).
    fold (bump c acc).
    assert (Hkey : ∀ k v, (k, v) ∈ acc → k ∈ acc.*1).
    { intros k v Hin. apply list_elem_of_fmap. by exists (k, v). }
    case_decide as Hc.
    + assert (Hnodup' : NoDup (bump c acc).*1) by (by rewrite bump_keys).
      destruct (IH _ Hnodup') as [Hnd Hspec]. split; [exact Hnd |].
      intros cat n. rewrite Hspec, countInCategory_cons, bump_keys.
      fold c. setoid_rewrite bump_elem. split.
      * intros [(n0 & [[Hne Hin] | [-> (n1 & Hin & ->)]] & ->)
               | (Hnot & Hpos & ->)].
        -- left. exists n0. rewrite decide_False by done. split; [done | lia].
        -- left. exists n1. rewrite decide_True by done. split; [done | lia].
        -- right. assert (c ≠ cat) by (intros ->; done).
           rewrite decide_False by done. repeat split; [done | lia | lia].
      * intros [(n0 & Hin & ->) | (Hnot & Hpos & ->)].
        -- left. destruct (decide (c = cat)) as [<- | Hne].
           ++ exists (n0 + 1). split; [| lia]. right. split; [done |].
              by exists n0.
           ++ exists n0. split; [| lia]. left. split; [congruence | done].
        -- right. assert (c ≠ cat) by (intros ->; done).
           rewrite decide_False in * by done.
           repeat split; [done | lia | lia].
    + assert (Hnodup' : NoDup (acc ++ [(c, 1)]).*1).
      { rewrite fmap_app. apply NoDup_app. repeat split; [done | |].
        - intros k Hk Hk'. cbn in Hk'. apply list_elem_of_singleton in Hk'.
          by subst k.
        - cbn. apply NoDup_singleton. }
      destruct (IH _ Hnodup') as [Hnd Hspec]. split; [exact Hnd |].
      intros cat n. rewrite Hspec, countInCategory_cons. fold c.
      rewrite fmap_app. cbn [fmap list_fmap fst].
      setoid_rewrite elem_of_app. setoid_rewrite list_elem_of_singleton.
      pose proof (length_filter (λ s, qcategory s = cat) signs) as Hle.
      assert (Hcount : 0 ≤ countInCategory cat signs)
        by (unfold countInCategory; lia).
      split.
      * intros [(n0 & [Hin | Heq] & ->) | (Hnot & Hpos & ->)].
        -- left. exists n0. assert (c ≠ cat) by (intros ->; eauto).
           rewrite decide_False by done. split; [done | lia].
        -- injection Heq as -> ->. right. rewrite decide_True by done.
           repeat split; [done | lia | lia].
        -- right. assert (c ≠ cat) by (intros ->; apply Hnot; by right).
           rewrite decide_False by done.
           repeat split; [intros ?; apply Hnot; by left | lia | lia].
      * intros [(n0 & Hin & ->) | (Hnot & Hpos & ->)].
        -- left. exists n0. assert (c ≠ cat) by (intros ->; eauto).
           rewrite decide_False by done. split; [by left | lia].
        -- destruct (decide (c = cat)) as [<- | Hne].
           ++ left. exists 1. split; [by right | lia].
           ++ right. repeat split; [intros [? | ?]; done | lia | lia].
Qed.
End CategoryTotals.

(** X22. The category totals that [finishQuiz] accumulates over the quiz's
    signs: every category of a sign of the quiz appears exactly once, with
    the number of the quiz's signs in that category, and no other category
    appears. *)
Theorem categoryTotals_counts (signs : list QuizSign) :
  NoDup (categoryTotals signs []).*1
  ∧ (∀ cat n, (cat, n) ∈ categoryTotals signs []
              ↔ n = countInCategory cat signs ∧ ∃ s, s ∈ signs ∧ qcategory s = cat)
  ∧ (∀ cat, cat ∈ (categoryTotals signs []).*1 ↔ cat ∈ qcategory <$> signs).
Proof.
  destruct (categoryTotals_spec signs [] (NoDup_nil_2)) as [Hnd Hspec].
  assert (Hpos : ∀ cat, 0 < countInCategory cat signs
                        ↔ ∃ s, s ∈ signs ∧ qcategory s = cat).
  { intros cat. unfold countInCategory. split.
    - intros Hlen.
      destruct (filter (λ s, qcategory s = cat) signs) as [| s rest] eqn:Hf;
        [cbn in Hlen; lia |].
      exists s. assert (Hs : s ∈ filter (λ s, qcategory s = cat) signs)
        by (rewrite Hf; by left).
      by apply list_elem_of_filter in Hs as [? ?].
    - intros (s & Hs & Hcat).
      assert (Hin : s ∈ filter (λ s, qcategory s = cat) signs)
        by (by apply list_elem_of_filter).
      destruct (filter (λ s, qcategory s = cat) signs);
        [by apply elem_of_nil in Hin | cbn; lia]. }
  assert (Helem : ∀ cat n, (cat, n) ∈ categoryTotals signs []
                  ↔ n = countInCategory cat signs
                    ∧ ∃ s, s ∈ signs ∧ qcategory s = cat).
  { intros cat n. rewrite Hspec, <- Hpos. split.
    - intros [(n0 & Hin & _) | (_ & Hp & ->)];
        [by apply elem_of_nil in Hin | done].
    - intros [-> Hp]. right. repeat split; [| done].
      cbn. apply not_elem_of_nil. }
  split; [exact Hnd |]. split; [exact Helem |].
  intros cat. rewrite !list_elem_of_fmap. split.
  - intros ([k n] & -> & Hin). apply Helem in Hin as [_ (s & Hs & Hcat)].
    by exists s.
  - intros (s & -> & Hs). exists (qcategory s, countInCategory (qcategory s) signs).
    split; [reflexivity |]. apply Helem. split; [reflexivity |]. by exists s.
Qed.

(** ** The study recommendation *)

(** X23. The study recommendation follows the overdue records.  Its
    priority is high exactly when ten or more records are overdue and low
    exactly when none is overdue and every sign has a record; it sends the
    user to the spaced mode only when something is overdue, and always
    when five or more records are.  The overdue count is the number of
    records that [isDueForReview] reports as due, at most the number of
    records. *)
Theorem getStudyRecommendation_table (now : Z)
    (progressList : list SignProgress) (allSigns : list QuizSign) :
  let r := getStudyRecommendation now progressList allSigns in
  let overdue := getOverdueCount now progressList in
  let unstudied := filter (λ s, id s ∉ signId <$> progressList) allSigns in
  overdue
  = length (filter (λ p, isDueForReview now (Some p) = true) progressList)
  ∧ (overdue ≤ length progressList)%nat
  ∧ (rec_priority r = "high" ↔ (10 ≤ overdue)%nat)
  ∧ (rec_priority r = "low" ↔ overdue = 0%nat ∧ unstudied = [])
  ∧ (rec_mode r = "spaced" → (0 < overdue)%nat)
  ∧ ((5 ≤ overdue)%nat → rec_mode r = "spaced").
Proof.
  intros r overdue unstudied. subst r. unfold getStudyRecommendation.
  fold (getOverdueCount now progressList). fold overdue.
  assert (Hnew : filter (λ s, id s ∉ (list_to_set (signId <$> progressList)
                                      : gset string)) allSigns = unstudied)
    by (apply list_filter_iff; intros x; by rewrite elem_of_list_to_set).
  rewrite Hnew.
  assert (Hnil : length unstudied = 0%nat ↔ unstudied = [])
    by (destruct unstudied; cbn; split; intros; first [done | lia]).
  split; [| split].
  - unfold overdue, getOverdueCount. f_equal. apply list_filter_iff.
    intros p. cbn [isDueForReview]. by rewrite Z.leb_le.
  - apply length_filter.
  - destruct (Nat.leb_spec 10 overdue) as [Hten | Hten]; cbn [rec_priority rec_mode].
    { repeat split; intros; first [done | lia]. }
    destruct (Nat.ltb_spec 0 (length unstudied)) as [Hnew0 | Hnew0];
      destruct (Nat.ltb_spec overdue 5) as [Hfive | Hfive]; cbn [andb];
      try destruct (Nat.ltb_spec 0 overdue) as [Hsome | Hsome];
      cbn [rec_priority rec_mode];
      repeat split; intros; try done; try lia; try (apply Hnil; lia);
      try (exfalso;
           match goal with
           | Hlow : _ ∧ unstudied = [] |- _ =>
             destruct Hlow as [_ Hu]; apply Hnil in Hu; lia
           end).
Qed.

Lemma getStudyRecommendation_table_witness :
  rec_priority (getStudyRecommendation 0 [twoOfFour] [sampleSign "A1"])
  = "low".
Proof.
  destruct (getStudyRecommendation_table 0 [twoOfFour] [sampleSign "A1"])
    as (_ & _ & _ & Hlow & _).
  apply Hlow. split; vm_compute; reflexivity.
Defined.

(** ** Personalized recommendations *)

Lemma priorityOrder_range (priority : string) :
  0 ≤ priorityOrder priority ≤ 2
  ∧ (priorityOrder priority = 0 ↔ priority = "high").
Proof.
  unfold priorityOrder. repeat case_decide; split; try lia; split;
    intros; first [done | lia | congruence].
Qed.

Section Recommendations.
Context (toDateString : Z → string) (now : Z)
  (signData : gmap string Category)
  (allProgress dueForReview : list SignProgress)
  (sessions : list QuizSession).

Let recs :=
  getPersonalizedRecommendations toDateString now signData allProgress
    dueForReview sessions.

(** The recommendations before sorting: at most one of each kind, in the
    order of the source. *)
Lemma recommendations_unsorted :
  ∃ unsorted,
    recs ≡ₚ unsorted
    ∧ r_type <$> unsorted
      `sublist_of` ["review"; "weak_category"; "new_signs"; "streak";
                    "challenge"]
    ∧ (∀ r, r ∈ unsorted → r_priority r = "high" → r_type r = "review")
    ∧ (dueForReview ≠ [] ↔ ∃ r, r ∈ unsorted ∧ r_type r = "review")
    ∧ (∀ r, r ∈ unsorted → r_type r = "review" → r_priority r = "high").
Proof.
  subst recs. unfold getPersonalizedRecommendations.
  set (review := if (0 <? length dueForReview)%nat then _ else _).
  set (weak := match weakCategories allProgress with [] => _ | _ => _ end).
  set (newSigns := if (_ && _) then _ else _).
  set (keepStreak := if negb _ then _ else _).
  set (challenge := if Qlt_le_dec _ _ then _ else _).
  exists (review ++ weak ++ newSigns ++ keepStreak ++ challenge).
  split; [apply sort_Permutation |].
  assert (Hreview : (dueForReview = [] ∧ review = [])
                    ∨ (dueForReview ≠ []
                       ∧ ∃ r, review = [r] ∧ r_type r = "review"
                              ∧ r_priority r = "high")).
  { subst review. destruct dueForReview; cbn; [by left |].
    right. split; [done |]. eexists. repeat split. }
  assert (Hweak : weak = []
                  ∨ ∃ r, weak = [r] ∧ r_type r = "weak_category"
                         ∧ r_priority r = "medium").
  { subst weak. destruct (weakCategories allProgress); [by left |].
    right. eexists. repeat split. }
  assert (Hnew : newSigns = []
                 ∨ ∃ r, newSigns = [r] ∧ r_type r = "new_signs"
                        ∧ r_priority r ≠ "high").
  { subst newSigns. destruct (_ && _); [| by left].
    right. eexists. split; [reflexivity |]. split; [reflexivity |].
    cbn. by destruct (50 <? _). }
  assert (Hstreak : keepStreak = []
                    ∨ ∃ r, keepStreak = [r] ∧ r_type r = "streak"
                           ∧ r_priority r = "low").
  { subst keepStreak. destruct (negb _); [| by left].
    right. eexists. repeat split. }
  assert (Hchallenge : challenge = []
                       ∨ ∃ r, challenge = [r] ∧ r_type r = "challenge"
                              ∧ r_priority r = "low").
  { subst challenge. destruct (Qlt_le_dec _ _); [| by left].
    destruct (20 <? _)%nat; [| by left].
    right. eexists. repeat split. }
  clearbody review weak newSigns keepStreak challenge.
  destruct Hreview as [[Hdue ->] | (Hdue & r1 & -> & Ht1 & Hp1)];
    destruct Hweak as [-> | (r2 & -> & Ht2 & Hp2)];
    destruct Hnew as [-> | (r3 & -> & Ht3 & Hp3)];
    destruct Hstreak as [-> | (r4 & -> & Ht4 & Hp4)];
    destruct Hchallenge as [-> | (r5 & -> & Ht5 & Hp5)];
    cbn [app fmap list_fmap]; rewrite ?Ht1, ?Ht2, ?Ht3, ?Ht4, ?Ht5;
    (split; [repeat first [apply sublist_nil | apply sublist_skip
                          | apply sublist_cons] |]);
    (split; [intros r Hr Hhigh; set_unfold; destruct_or?; subst;
             first [done | congruence] |]);
    (split; [split; [intros Hne; first [done | exists r1; set_solver]
                    | intros (r & Hr & Ht); set_unfold; destruct_or?; subst;
                      first [done | congruence]] |]);
    intros r Hr Ht; set_unfold; destruct_or?; subst; first [done | congruence].
Qed.
End Recommendations.

Lemma StronglySorted_weaken {A : Type} (R R' : A → A → Prop) (l : list A) :
  (∀ a b, R a b → R' a b) → StronglySorted R l → StronglySorted R' l.
Proof.
  intros Himpl. induction 1 as [| x l Hsorted IH Hall]; constructor.
  - exact IH.
  - eapply Forall_impl; [exact Hall | apply Himpl].
Qed.

(** X24. The personalized recommendations come out in the order high,
    medium, low, at most one of each of the five kinds.  The only
    recommendation of high priority is the review of due signs: it is
    present exactly when some record is due, and it is then the first of
    the list. *)
Theorem getPersonalizedRecommendations_order (toDateString : Z → string)
    (now : Z) (signData : gmap string Category)
    (allProgress dueForReview : list SignProgress)
    (sessions : list QuizSession) :
  let recs :=
    getPersonalizedRecommendations toDateString now signData allProgress
      dueForReview sessions in
  StronglySorted
    (λ a b, priorityOrder (r_priority a) ≤ priorityOrder (r_priority b)) recs
  ∧ NoDup (r_type <$> recs)
  ∧ (length recs ≤ 5)%nat
  ∧ (∀ r, r ∈ recs → (r_priority r = "high" ↔ r_type r = "review"))
  ∧ (dueForReview ≠ [] ↔ ∃ r, r ∈ recs ∧ r_type r = "review")
  ∧ (dueForReview ≠ [] →
     ∃ r, head recs = Some r ∧ r_type r = "review" ∧ r_priority r = "high").
Proof.
  intros recs.
  destruct (recommendations_unsorted toDateString now signData allProgress
              dueForReview sessions)
    as (unsorted & Hperm & Htypes & Hhigh & Hreview & Hrev_high).
  fold recs in Hperm.
  assert (Hsorted : StronglySorted
            (λ a b, priorityOrder (r_priority a) ≤ priorityOrder (r_priority b))
            recs).
  { pose proof (sort_descending
      (λ a b : Recommendation,
         inject_Z (priorityOrder (r_priority a) - priorityOrder (r_priority b)))
      (λ a, inject_Z (- priorityOrder (r_priority a)))) as Hdesc.
    eapply StronglySorted_weaken; [| apply Hdesc].
    - intros a b Hab. unfold descending in Hab. rewrite <- Zle_Qle in Hab. lia.
    - intros a b. unfold Qlt, inject_Z. cbn. lia. }
  assert (Hnodup : NoDup (r_type <$> recs)).
  { rewrite Hperm. eapply sublist_NoDup; [| exact Htypes].
    apply (bool_decide_unpack _). vm_compute. reflexivity. }
  split; [exact Hsorted |]. split; [exact Hnodup |].
  split; [| split; [| split]].
  - rewrite <- (length_fmap r_type), Hperm.
    apply sublist_length in Htypes. exact Htypes.
  - intros r Hr. rewrite Hperm in Hr. split; [by apply Hhigh | by apply Hrev_high].
  - rewrite Hreview. by setoid_rewrite Hperm.
  - intros Hdue. apply Hreview in Hdue as (r0 & Hr0 & Ht0).
    pose proof (Hrev_high r0 Hr0 Ht0) as Hp0.
    rewrite <- Hperm in Hr0.
    destruct recs as [| h rest] eqn:Hrecs; [by apply elem_of_nil in Hr0 |].
    exists h. split; [reflexivity |].
    assert (Hrank : priorityOrder (r_priority h) ≤ 0).
    { apply StronglySorted_inv in Hsorted as [_ Hall].
      apply elem_of_cons in Hr0 as [-> | Hr0].
      - rewrite Hp0. reflexivity.
      - rewrite Forall_forall in Hall. specialize (Hall r0 Hr0).
        cbn in Hall. rewrite Hp0 in Hall. exact Hall. }
    destruct (priorityOrder_range (r_priority h)) as [Hrange Hzero].
    assert (Hph : r_priority h = "high") by (apply Hzero; lia).
    split; [| exact Hph]. apply Hhigh; [| exact Hph].
    rewrite <- Hperm. by left.
Qed.

Lemma getPersonalizedRecommendations_order_witness :
  ∃ r, head (getPersonalizedRecommendations (λ _, "Mon Jan 01 2024") 90000000
               {[ "warning" := demoCategory ]} [twoOfFour] [twoOfFour] [])
       = Some r ∧ r_type r = "review".
Proof.
  destruct (getPersonalizedRecommendations_order (λ _, "Mon Jan 01 2024")
              90000000 {[ "warning" := demoCategory ]} [twoOfFour]
              [twoOfFour] []) as (_ & _ & _ & _ & _ & Hhead).
  destruct Hhead as (r & Hr & Ht & _); [discriminate |].
  exists r. split; [exact Hr | exact Ht].
Defined.

(** ** Progress and results of a quiz *)

(** X25. While a question is on, the progress is a percentage above 0 and
    at most 100, equal to 100 on the last question only, and [nextQuestion]
    tells whether the quiz goes on: it returns [true] exactly when the quiz
    is not complete afterwards.  When a session that counted every question
    is complete, and the quiz is not empty, the incorrect answers
    reported by [getQuizResults] are as many as the signs in the list of
    wrong answers, and the percentage lies between 0 and 100 and is the one
    of the session record. *)
Theorem quiz_progress_and_results (now : Z) (state : State) :
  ((currentQuestion state < length (quizSigns state))%nat →
     isQuizComplete state = false
     ∧ (0 < qp_percentage (getQuizProgress state))%Q
     ∧ (qp_percentage (getQuizProgress state) <= 100)%Q
     ∧ ((qp_percentage (getQuizProgress state) == 100)%Q
        ↔ S (currentQuestion state) = length (quizSigns state)))
  ∧ (nextQuestion state).1 = negb (isQuizComplete (nextQuestion state).2)
  ∧ (sessionCounted state → isQuizComplete state = true →
     quizSigns state ≠ [] →
       qr_incorrectAnswers (getQuizResults state)
       = Z.of_nat (length (qr_wrongAnswers (getQuizResults state)))
       ∧ 0 ≤ qr_percentage (getQuizResults state) ≤ 100
       ∧ qr_percentage (getQuizResults state)
         = qs_percentage (sessionRecord now state)).
Proof.
  split; [| split].
  - intros Hon. unfold isQuizComplete, getQuizProgress. cbn [qp_percentage].
    split; [apply bool_decide_eq_false_2; lia |].
    set (cur := Z.of_nat (currentQuestion state) + 1).
    set (total := Z.of_nat (length (quizSigns state))).
    assert (Hcur : 0 < cur ≤ total) by (subst cur total; lia).
    assert (Htq : (0 < inject_Z total)%Q) by (unfold Qlt; cbn; lia).
    assert (Hcq : (0 < inject_Z cur)%Q) by (unfold Qlt; cbn; lia).
    assert (Hle : (inject_Z cur <= inject_Z total)%Q)
      by (rewrite <- Zle_Qle; lia).
    assert (Hfrac : (0 < inject_Z cur / inject_Z total)%Q)
      by (apply Qlt_shift_div_l; [exact Htq | lra]).
    assert (Hone : (inject_Z cur / inject_Z total <= 1)%Q)
      by (apply Qle_shift_div_r; [exact Htq | lra]).
    split; [lra |]. split; [lra |]. split.
    + intros Hfull.
      assert (Heq : (inject_Z cur == inject_Z total)%Q).
      { assert (Hd : (inject_Z cur / inject_Z total == 1)%Q) by lra.
        assert (Hnz : ¬ (inject_Z total == 0)%Q) by (intros H0; lra).
        rewrite <- (Qmult_div_r (inject_Z cur) (inject_Z total) Hnz).
        rewrite Hd. ring. }
      unfold Qeq in Heq. cbn in Heq. subst cur total. lia.
    + intros Hlast.
      assert (Heq : cur = total) by (subst cur total; lia).
      rewrite Heq. field. lra.
  - unfold nextQuestion, isQuizComplete.
    cbn [fst snd currentQuestion quizSigns withSession].
    destruct (decide (S (currentQuestion state) < length (quizSigns state))%nat).
    + rewrite bool_decide_eq_true_2, bool_decide_eq_false_2 by lia. reflexivity.
    + rewrite bool_decide_eq_false_2, bool_decide_eq_true_2 by lia. reflexivity.
  - intros (Hsum & Hpos & Hcur & Hwrong) Hcomplete Hsome.
    unfold isQuizComplete in Hcomplete. apply bool_decide_eq_true_1 in Hcomplete.
    unfold getQuizResults, sessionRecord.
    cbn [qr_incorrectAnswers qr_wrongAnswers qr_percentage qs_percentage].
    split; [lia |]. split; [| reflexivity].
    set (correct := correctAnswers state) in *.
    set (total := Z.of_nat (length (quizSigns state))).
    assert (Htotal : 0 < total).
    { subst total. destruct (quizSigns state); [done | cbn; lia]. }
    assert (Hct : correct ≤ total) by (subst total; lia).
    assert (Htq : (0 < inject_Z total)%Q) by (unfold Qlt; cbn; lia).
    assert (Hcq : (0 <= inject_Z correct)%Q) by (unfold Qle; cbn; lia).
    assert (Hle : (inject_Z correct <= inject_Z total)%Q)
      by (rewrite <- Zle_Qle; lia).
    assert (Hfrac : (0 <= inject_Z correct / inject_Z total)%Q)
      by (apply Qle_shift_div_l; [exact Htq | lra]).
    assert (Hone : (inject_Z correct / inject_Z total <= 1)%Q)
      by (apply Qle_shift_div_r; [exact Htq | lra]).
    split.
    + apply Js_round_ge. change (inject_Z 0) with 0%Q. lra.
    + apply Js_round_le. change (inject_Z 100) with 100%Q. lra.
Qed.

Lemma quiz_progress_and_results_witness :
  isQuizComplete (startQuiz 0 alwaysHalf emptyStore standardState).2 = false.
Proof.
  destruct (quiz_progress_and_results 0
              (startQuiz 0 alwaysHalf emptyStore standardState).2)
    as [Hon _].
  apply Hon. vm_compute. lia.
Defined.

(** ** The next best signs *)

Lemma scoredSigns_elem (now : Z) (signEntries : list (string * Category))
    (allProgress : list SignProgress) (s : ScoredSign) :
  s ∈ scoredSigns now signEntries allProgress →
  ∃ entry, entry ∈ signEntries ∧ ss_sign s ∈ cat_signs entry.2
           ∧ ss_category s = entry.1
           ∧ ss_progress s = progressMap allProgress !! sign_id (ss_sign s)
           ∧ ss_score s = studyScore now (ss_progress s).
Proof.
  unfold scoredSigns. rewrite list_elem_of_In, in_flat_map.
  setoid_rewrite <- list_elem_of_In.
  intros (entry & Hentry & Hs).
  apply list_elem_of_fmap in Hs as (sign & -> & Hsign).
  exists entry. repeat split; done.
Qed.

(** X26. The next best signs are the front of the catalogue ranked by
    study score, highest first: for a count that is not negative the result
    has [min count (number of signs)] entries, each a sign of the
    catalogue with its category, and a sign without a progress record is
    shown as new. *)
Theorem getNextBestSigns_ranked (now : Z)
    (signEntries : list (string * Category))
    (allProgress : list SignProgress) (count : Z) :
  0 ≤ count →
  let scored := scoredSigns now signEntries allProgress in
  let best := getNextBestSigns now signEntries allProgress count in
  Z.of_nat (length best) = Z.min count (Z.of_nat (length scored))
  ∧ (∃ ranked,
       ranked ≡ₚ scored
       ∧ StronglySorted (descending ss_score) ranked
       ∧ bs_id <$> best
         = take (Z.to_nat count) ((λ s, sign_id (ss_sign s)) <$> ranked))
  ∧ ∀ b, b ∈ best →
      ∃ entry sign,
        entry ∈ signEntries ∧ sign ∈ cat_signs entry.2
        ∧ bs_id b = sign_id sign ∧ bs_category b = entry.1
        ∧ (progressMap allProgress !! sign_id sign = None →
           level (bs_mastery b) = "new").
Proof.
  intros Hcount scored best. subst best. unfold getNextBestSigns.
  fold scored.
  set (cmp := λ a b : ScoredSign, (ss_score b - ss_score a)%Q).
  assert (Hkey : ∀ a b, (0 < cmp a b)%Q ↔ (ss_score a < ss_score b)%Q)
    by (intros a b; unfold cmp; split; intros; lra).
  pose proof (sort_Permutation cmp scored) as Hperm.
  pose proof (sort_descending cmp ss_score Hkey scored) as Hsorted.
  set (ranked := JsArray.sort cmp scored) in *.
  split; [| split].
  - rewrite length_fmap, slice0_length by done.
    by rewrite (Permutation_length Hperm).
  - exists ranked. split; [exact Hperm |]. split; [exact Hsorted |].
    rewrite slice0_take by done.
    rewrite <- list_fmap_compose, fmap_take. reflexivity.
  - intros b (s & -> & Hs)%list_elem_of_fmap.
    apply subseteq_take in Hs. rewrite Hperm in Hs.
    apply scoredSigns_elem in Hs
      as (entry & Hentry & Hsign & Hcat & Hprog & _).
    exists entry, (ss_sign s). cbn [bs_id bs_category bs_mastery].
    repeat split; try done.
    intros Hnone. rewrite Hprog, Hnone. reflexivity.
Qed.

Lemma getNextBestSigns_ranked_witness :
  Z.of_nat
    (length (getNextBestSigns 0 [("warning", demoCategory)] [twoOfFour] 2))
  = 2.
Proof.
  destruct (getNextBestSigns_ranked 0 [("warning", demoCategory)]
              [twoOfFour] 2) as [Hlen _]; [discriminate |].
  rewrite Hlen. vm_compute. reflexivity.
Defined.

(** ** Precedence in the adaptive mode *)

(** X27. In the adaptive mode a sign that was never attempted is never
    passed over for a sign that is known and not yet due: if such a known
    sign, with a retention score that is not negative, is selected, every
    sign of the pool without a progress record is selected too and stands
    before it. *)
Theorem adaptive_new_before_known (now : Z)
    (allProgress : list SignProgress) (candidates : list QuizSign) (n : Z)
    (before after : list QuizSign) (known fresh : QuizSign)
    (p : SignProgress) :
  0 ≤ n →
  selectAdaptive now allProgress candidates n = before ++ known :: after →
  progressMap allProgress !! id known = Some p →
  isDueForReview now (Some p) = false →
  0 ≤ getRetentionScore (Some p) →
  fresh ∈ candidates →
  progressMap allProgress !! id fresh = None →
  fresh ∈ before.
Proof.
  intros Hn Hsel Hknown Hdue Hret Hfresh Hnone.
  destruct (selectAdaptive_front now allProgress candidates n Hn)
    as (_ & _ & _ & (rest & Hperm & Hsorted) & _).
  cbv zeta in Hperm, Hsorted. rewrite Hsel in Hperm, Hsorted.
  set (prio := priorityOf now (progressMap allProgress)) in *.
  assert (Hfresh_prio : prio fresh = 50%Q).
  { subst prio. unfold priorityOf. by rewrite Hnone. }
  assert (Hknown_prio : (prio known <= 20)%Q).
  { subst prio. unfold priorityOf. rewrite Hknown, Hdue.
    assert (Hr : (inject_Z 0 <= inject_Z (getRetentionScore (Some p)))%Q)
      by (rewrite <- Zle_Qle; exact Hret).
    change (inject_Z 0) with 0%Q in Hr. lra. }
  rewrite <- Hperm in Hfresh.
  rewrite <- app_assoc in Hfresh, Hsorted. cbn [app] in Hfresh, Hsorted.
  apply elem_of_app in Hfresh as [Hin | Hin]; [exact Hin |]. exfalso.
  apply StronglySorted_app_1_r, StronglySorted_inv in Hsorted
    as [_ Hall].
  apply elem_of_cons in Hin as [-> | Hin]; [congruence |].
  rewrite Forall_forall in Hall. specialize (Hall fresh Hin). cbn in Hall.
  rewrite Hfresh_prio in Hall. lra.
Qed.

Lemma adaptive_new_before_known_witness :
  selectAdaptive 0 [twoOfFour] [sampleSign "A1"; sampleSign "A2"] 2
  = [sampleSign "A2"; sampleSign "A1"]
  ∧ sampleSign "A2" ∈ [sampleSign "A2"].
Proof.
  split; [vm_compute; reflexivity |].
  apply (adaptive_new_before_known 0 [twoOfFour]
           [sampleSign "A1"; sampleSign "A2"] 2
           [sampleSign "A2"] [] (sampleSign "A1") (sampleSign "A2")
           twoOfFour).
  - discriminate.
  - vm_compute. reflexivity.
  - vm_compute. reflexivity.
  - reflexivity.
  - vm_compute. discriminate.
  - rewrite !elem_of_cons. right. left. reflexivity.
  - vm_compute. reflexivity.
Defined.
